(** * pure-effect: the effect algebra of [src/index.js]

  [index.js] exports three constructors ([Success], [Failure],
  [Command]), the combinator [effectPipe] (built on the private
  [chain]) and the interpreter [runEffect].

  JavaScript functions may mutate whatever they close over and may
  throw.  Every function of the program is therefore embedded as a
  computation in a state-and-exception monad [M] over an abstract
  [World]; a property "f is never invoked" becomes "the result and the
  final world are the same for every f", which holds in particular when
  f is a spy that counts its calls in the world.

  One call of [runEffect] is modelled on its own: nothing else runs
  while it awaits an operation, and every operation settles.

  The second source file, the test suite, builds a user-registration
  flow on these functions; module [Registration] embeds its [db], its
  steps, [registerUserFlow] and [registerUser]. *)

From Stdlib Require Import List String Bool Arith Lia.
Import ListNotations.

Set Implicit Arguments.

Section PureEffect.

(** JavaScript values carried as payloads, operation results and
    thrown errors (JavaScript can throw any value). *)
Variable Val : Type.
(** Everything the closures of the program can read and mutate. *)
Variable World : Type.
(** The [TypeError] the engine throws when a property of [undefined]
    is read. *)
Variable type_error : Val.

(** ** Completions and the monad of JavaScript function calls *)

Inductive completion (A : Type) : Type :=
| Normal (a : A)
| Throw (e : Val).
Arguments Throw {A} e.

Definition M (A : Type) : Type := World -> completion A * World.

Definition ret {A} (a : A) : M A := fun w => (Normal a, w).

Definition throw {A} (e : Val) : M A := fun w => (Throw e, w).

Definition bind {A B} (m : M A) (k : A -> M B) : M B :=
  fun w =>
    match m w with
    | (Normal a, w1) => k a w1
    | (Throw e, w1) => (Throw e, w1)
    end.

Notation "x <- m ;; k" := (bind m (fun x => k))
  (at level 61, m at next level, right associativity).

(** ** Operations

    [cmd] is a zero-argument function, synchronous or asynchronous.
    Calling it either returns a plain value, returns a promise that
    later resolves or rejects, or throws at the call. *)

Inductive settled : Type :=
| Returns (r : Val)
| Resolves (r : Val)
| Throws (e : Val)
| Rejects (e : Val).

Definition Op : Type := World -> settled * World.

(** [await x] inside the [try] block: a plain value and a resolved
    promise both give the value; a throw at the call and a rejection
    both transfer control to [catch]. *)
Definition await (s : settled) : completion Val :=
  match s with
  | Returns r => Normal r
  | Resolves r => Normal r
  | Throws e => Throw e
  | Rejects e => Throw e
  end.

(** ** Effect values

    The first three constructors are what [Success], [Failure] and
    [Command] of [index.js] build: objects whose [type] field is
    ['Success'], ['Failure'], ['Command'].  Nothing in the program
    checks what a step function or a continuation returns, so other
    shapes can reach [chain] and [runEffect]: [Foreign type body], any
    other value whose [type] property reads as something else and that
    has no callable [then]; [Undefined], on which reading [.type]
    throws; and [Thenable type then_], an object with a callable [then]
    whose [type] reads as something else, such as the promise an
    [async] continuation returns.  [then_] is what the thenable settles
    with when a promise adopts it: the value it fulfils with, or the
    reason it rejects with.

    The type is inductive: every chain of [Command]s it holds is
    finite. *)

#[local] Unset Elimination Schemes.

Inductive Effect : Type :=
| Success (value : Val)
| Failure (error : Val)
| Command (cmd : Op) (next : Val -> M Effect)
| Foreign (type : string) (body : Val)
| Undefined
| Thenable (type : string) (then_ : M Effect).

#[local] Set Elimination Schemes.

Definition Fn : Type := Val -> M Effect.

(** [effect.type]; [None] when the property read itself throws. *)
Definition type_of (effect : Effect) : option string :=
  match effect with
  | Success _ => Some "Success"%string
  | Failure _ => Some "Failure"%string
  | Command _ _ => Some "Command"%string
  | Foreign type _ => Some type
  | Undefined => None
  | Thenable type _ => Some type
  end.

(** Terminal Outcome: Success or Failure. *)
Definition is_outcome (effect : Effect) : bool :=
  match effect with
  | Success _ | Failure _ => true
  | _ => false
  end.

Definition is_command (effect : Effect) : bool :=
  match effect with
  | Command _ _ => true
  | _ => false
  end.

(** Whether [effect.then] is callable. *)
Definition is_thenable (effect : Effect) : bool :=
  match effect with
  | Thenable _ _ => true
  | _ => false
  end.

(** ** [chain] (index.js, lines 5-15) *)

Fixpoint chain (effect : Effect) (fn : Fn) : M Effect :=
  match effect with
  | Success value => fn value
  | Failure _ => ret effect
  | Command cmd next_ =>
      let next : Val -> M Effect :=
        fun result => e <- next_ result ;; chain e fn in
      ret (Command cmd next)
  | Foreign _ _ => ret Undefined   (* no case matches, no default *)
  | Undefined => throw type_error  (* effect.type of undefined *)
  | Thenable _ _ => ret Undefined  (* no case matches, no default *)
  end.

(** ** [Array.prototype.reduce] with an initial value

    The callback is called on the indices [0 .. length-1] in order;
    [chain] ignores the index and array arguments [reduce] also
    passes. *)

Fixpoint reduce_from (callback : Effect -> Fn -> M Effect) (fns : list Fn)
    (remaining k : nat) (accumulator : Effect) : M Effect :=
  match remaining with
  | 0 => ret accumulator
  | S remaining' =>
      match nth_error fns k with
      | Some fn =>
          acc <- callback accumulator fn ;;
          reduce_from callback fns remaining' (S k) acc
      | None => reduce_from callback fns remaining' (S k) accumulator
      end
  end.

Definition reduce (callback : Effect -> Fn -> M Effect) (fns : list Fn)
    (initialValue : Effect) : M Effect :=
  reduce_from callback fns (List.length fns) 0 initialValue.

(** ** [effectPipe] (index.js, lines 17-19) *)

Definition effectPipe (fns : list Fn) : Fn :=
  fun start => reduce chain fns (Success start).

(** ** [return effect] in an [async] function

    The promise of the function is resolved with the returned value.  A
    value with a callable [then] is adopted: the promise settles as the
    thenable does, and if the thenable fulfils with another thenable,
    that one is adopted in turn.  Any other value fulfils the promise
    as it is. *)

Fixpoint resolve_with (effect : Effect) (w : World)
    : completion Effect * World :=
  match effect with
  | Thenable _ then_ =>
      match then_ w with
      | (Normal v, w1) => resolve_with v w1
      | (Throw e, w1) => (Throw e, w1)
      end
  | _ => (Normal effect, w)
  end.

(** ** [runEffect] (index.js, lines 21-30)

    The promise [runEffect] returns either resolves ([Normal]) or
    rejects ([Throw]).  [fuel] bounds the number of times the body of
    the [while] loop is entered; [None] means the bound was reached
    with the loop still running. *)

Fixpoint runEffect (fuel : nat) (effect : Effect) (w : World)
    : option (completion Effect * World) :=
  match effect with
  | Undefined => Some (Throw type_error, w)
  | Command cmd next =>
      match fuel with
      | 0 => None
      | S fuel' =>
          let (s, w1) := cmd w in
          match await s with
          | Throw e => Some (Normal (Failure e), w1)
          | Normal r =>
              match next r w1 with
              | (Throw e, w2) => Some (Normal (Failure e), w2)
              | (Normal effect', w2) => runEffect fuel' effect' w2
              end
          end
      end
  | _ => Some (resolve_with effect w)
  end.

(** The same loop with ghost counters: how often the loop body was
    entered, which operations were called (in order), and whether the
    function returned from its [catch] block. *)

Record Run : Type := mkRun {
  result : completion Effect;
  world : World;
  iterations : nat;
  invoked : list Op;
  caught : bool
}.

Fixpoint runEffect_traced (fuel : nat) (effect : Effect) (w : World)
    (iters : nat) (ops : list Op) : option Run :=
  match effect with
  | Undefined => Some (mkRun (Throw type_error) w iters ops false)
  | Command cmd next =>
      match fuel with
      | 0 => None
      | S fuel' =>
          let iters1 := S iters in
          let (s, w1) := cmd w in
          let ops1 := ops ++ [cmd] in
          match await s with
          | Throw e => Some (mkRun (Normal (Failure e)) w1 iters1 ops1 true)
          | Normal r =>
              match next r w1 with
              | (Throw e, w2) =>
                  Some (mkRun (Normal (Failure e)) w2 iters1 ops1 true)
              | (Normal effect', w2) =>
                  runEffect_traced fuel' effect' w2 iters1 ops1
              end
          end
      end
  | _ =>
      let (settled_as, w1) := resolve_with effect w in
      Some (mkRun settled_as w1 iters ops false)
  end.

(** ** Well-formed effects

    An Effect of one of the three declared variants whose
    continuations, whenever they return, return such an Effect again.
    A continuation may still throw. *)

Inductive well_formed : Effect -> Prop :=
| wf_Success : forall value, well_formed (Success value)
| wf_Failure : forall error, well_formed (Failure error)
| wf_Command : forall cmd next,
    (forall r w effect' w', next r w = (Normal effect', w') ->
                            well_formed effect') ->
    well_formed (Command cmd next).

(** ** Behavioural equivalence

    Two effects are equivalent when they are the same outcome, the same
    object outside the three variants, or
    commands with the same operation whose continuations, on every
    result and in every world, throw the same error or return
    equivalent effects, and leave the same world. *)

Inductive same_completion (R : Effect -> Effect -> Prop)
  : completion Effect * World -> completion Effect * World -> Prop :=
| same_Normal : forall a b w, R a b -> same_completion R (Normal a, w) (Normal b, w)
| same_Throw : forall e w, same_completion R (Throw e, w) (Throw e, w).

#[local] Unset Elimination Schemes.

Inductive equiv : Effect -> Effect -> Prop :=
| equiv_Success : forall value, equiv (Success value) (Success value)
| equiv_Failure : forall error, equiv (Failure error) (Failure error)
| equiv_Command : forall cmd next1 next2,
    (forall r w, same_completion equiv (next1 r w) (next2 r w)) ->
    equiv (Command cmd next1) (Command cmd next2)
| equiv_Foreign : forall type body, equiv (Foreign type body) (Foreign type body)
| equiv_Undefined : equiv Undefined Undefined
| equiv_Thenable : forall type then_,
    equiv (Thenable type then_) (Thenable type then_).

#[local] Set Elimination Schemes.

(** ** The fold of the specification

    Pipeline as the specification words it: begin with the accumulator
    and, for each step in order, replace it with [chain accumulated
    step]. *)

Fixpoint pipeline_fold (steps : list Fn) (accumulated : Effect) : M Effect :=
  match steps with
  | [] => ret accumulated
  | step :: rest =>
      accumulated' <- chain accumulated step ;;
      pipeline_fold rest accumulated'
  end.

Definition pipeline_spec (steps : list Fn) : Fn :=
  fun start => pipeline_fold steps (Success start).

(** A step that always succeeds: it computes a value (possibly
    touching the world) and wraps it in [Success]. *)
Definition succeeding (g : Val -> World -> Val * World) : Fn :=
  fun v w => let (v', w') := g v w in (Normal (Success v'), w').

(** Threading a start value through the bodies of succeeding steps. *)
Fixpoint thread (gs : list (Val -> World -> Val * World)) (v : Val) (w : World)
    : Val * World :=
  match gs with
  | [] => (v, w)
  | g :: rest => let (v', w') := g v w in thread rest v' w'
  end.

(** Running a computation that yields an effect: if building the
    effect throws, the exception reaches the caller; otherwise the
    effect is interpreted. *)
Definition run_built (fuel : nat) (built : completion Effect * World)
    : option Run :=
  match built with
  | (Normal effect, w) => runEffect_traced fuel effect w 0 []
  | (Throw e, w) => Some (mkRun (Throw e) w 0 [] false)
  end.

(** An effect in which no thenable can come up: no continuation
    returns one.  The values [Success], [Failure] and [Command] build,
    and what synchronous continuations return, are of this kind. *)
Inductive thenable_free : Effect -> Prop :=
| tf_Success : forall value, thenable_free (Success value)
| tf_Failure : forall error, thenable_free (Failure error)
| tf_Command : forall cmd next,
    (forall r w effect' w', next r w = (Normal effect', w') ->
                            thenable_free effect') ->
    thenable_free (Command cmd next)
| tf_Foreign : forall type body, thenable_free (Foreign type body)
| tf_Undefined : thenable_free Undefined.

(** A step function is well-formed when every effect it returns is. *)
Definition well_formed_fn (fn : Fn) : Prop :=
  forall v w effect w', fn v w = (Normal effect, w') -> well_formed effect.

(** What one iteration of the loop does with what the continuation
    gave, inside [try]: a throw is caught, an effect becomes the
    [effect] of the next test of the loop. *)
Definition resume (fuel : nat) (given : completion Effect * World)
    (iters : nat) (ops : list Op) : option Run :=
  match given with
  | (Throw e, w) => Some (mkRun (Normal (Failure e)) w iters ops true)
  | (Normal effect', w) => runEffect_traced fuel effect' w iters ops
  end.

End PureEffect.

Arguments Normal {Val A} a.
Arguments Throw {Val A} e.
Arguments Success {Val World} value.
Arguments Failure {Val World} error.
Arguments Command {Val World} cmd next.
Arguments Foreign {Val World} type body.
Arguments Undefined {Val World}.
Arguments Thenable {Val World} type then_.
Arguments ret {Val World A} a w.
Arguments throw {Val World A} e w.
Arguments bind {Val World A B} m k w.
Arguments mkRun {Val World} result world iterations invoked caught.
Arguments well_formed {Val World} effect.
Arguments thenable_free {Val World} effect.
Arguments well_formed_fn {Val World} fn.
Arguments same_completion {Val World} R p q.
Arguments equiv {Val World} a b.

Notation "x <- m ;; k" := (bind m (fun x => k))
(at level 61, m at next level, right associativity).

(** * The registration flow of the test suite, as a concrete instance

  Values are strings, the world is the log of every function and
  operation that has run, in order: each step and each operation is a
  spy that appends its name. *)

Module Demo.

Definition Val : Type := string.
Definition World : Type := list string.
Definition type_error : Val := "TypeError"%string.

Definition spy (name : string) (fn : Fn Val World) : Fn Val World :=
  fun v w => fn v (w ++ [name]).

Definition validateRegistration : Fn Val World :=
  spy "validateRegistration"
    (fun input =>
       if String.eqb input "bad-email"
       then ret (Failure "Invalid email format."%string)
       else ret (Success input)).

Definition cmdFindUser : Op Val World :=
  fun w => (Resolves "null"%string, w ++ ["cmdFindUser"%string]).

Definition cmdSaveUser : Op Val World :=
  fun w => (Resolves "savedRecord"%string, w ++ ["cmdSaveUser"%string]).

(** An operation whose promise rejects, and one that throws at the call. *)
Definition cmdRejects : Op Val World :=
  fun w => (Rejects "db down"%string, w ++ ["cmdRejects"%string]).

Definition cmdThrows : Op Val World :=
  fun w => (Throws "boom"%string, w ++ ["cmdThrows"%string]).

Definition findUserByEmail : Effect Val World :=
  Command cmdFindUser (fun foundUser => ret (Success foundUser)).

Definition ensureEmailIsAvailable : Fn Val World :=
  spy "ensureEmailIsAvailable"
    (fun foundUser =>
       if String.eqb foundUser "null"
       then ret (Success "true"%string)
       else ret (Failure "Email already in use."%string)).

Definition saveUser : Effect Val World :=
  Command cmdSaveUser (fun savedUser => ret (Success savedUser)).

Definition steps : list (Fn Val World) :=
  [ validateRegistration;
    spy "findUserByEmail" (fun _ => ret findUserByEmail);
    ensureEmailIsAvailable;
    spy "saveUser" (fun _ => ret saveUser) ].

Definition registerUserFlow : Fn Val World :=
  effectPipe type_error steps.

(** A continuation that throws. *)
Definition brokenNext : Effect Val World :=
  Command cmdFindUser (fun _ => throw "next failed"%string).

(** A command whose operation fails, followed by another command. *)
Definition rejectsThenSaves : Effect Val World :=
  Command cmdRejects (fun _ => ret saveUser).

Definition throwsThenSaves : Effect Val World :=
  Command cmdThrows (fun _ => ret saveUser).

(** Two commands in a row. *)
Definition findThenSave : Effect Val World :=
  Command cmdFindUser (fun _ => ret saveUser).

(** A continuation that detects an error and returns a Failure. *)
Definition findThenReject : Effect Val World :=
  Command cmdFindUser (fun _ => ret (Failure "Email already in use."%string)).

(** Steps that only succeed. *)
Definition appendBang : Val -> World -> Val * World :=
  fun v w => (String.append v "!"%string, w ++ ["appendBang"%string]).

Definition appendHash : Val -> World -> Val * World :=
  fun v w => (String.append v "#"%string, w ++ ["appendHash"%string]).

(** An object that is none of the three variants. *)
Definition pending : Effect Val World := Foreign "Pending"%string "job-1"%string.

(** What an [async] continuation returns for [saveUser]: a promise,
    fulfilled with the Command.  It is an object with a [then] method
    and no variant tag. *)
Definition promised : Effect Val World :=
  Thenable "Promise"%string (ret saveUser).

(** A command whose continuation is [async]. *)
Definition findThenAsync : Effect Val World :=
  Command cmdFindUser (fun _ => ret promised).

End Demo.

(** * The registration flow as the test file writes it

    The second source file defines an in-memory [db], four steps, the
    flow [registerUserFlow] built with [effectPipe], and [registerUser],
    which interprets the flow with [runEffect].

    Strings are sequences of code units, one [ascii] each.  A property
    of the input object is absent (it reads as [undefined]), [null] or a
    string, as the file's [User] typedef has them. *)

Module Registration.

Inductive field : Type :=
| Absent
| Null
| Str (s : string).

(** [{id?: number, email: string, password: string}] *)
Record User : Type := mkUser {
  id : option nat;
  email : field;
  password : field
}.

(** The values that flow through the steps. *)
Inductive value : Type :=
| VUndefined
| VNull
| VBool (b : bool)
| VString (s : string)
| VUser (u : User)
| VTypeError.

(** [db.users], a [Map] from e-mails to users, with the entries in
    insertion order; and the clock [Date.now()] reads. *)
Record World : Type := mkWorld {
  users : list (field * User);
  now : nat
}.

Definition type_error : value := VTypeError.

(** Keys of a [Map] are compared by SameValueZero. *)
Definition field_eqb (a b : field) : bool :=
  match a, b with
  | Absent, Absent => true
  | Null, Null => true
  | Str s, Str t => String.eqb s t
  | _, _ => false
  end.

(** [Map.prototype.get]: [None] stands for [undefined]. *)
Fixpoint map_get (key : field) (m : list (field * User)) : option User :=
  match m with
  | [] => None
  | (k, u) :: rest => if field_eqb k key then Some u else map_get key rest
  end.

(** [Map.prototype.set]: the value of a present key is replaced where
    it stands, a new key is added at the end. *)
Fixpoint map_set (key : field) (u : User) (m : list (field * User))
    : list (field * User) :=
  match m with
  | [] => [(key, u)]
  | (k, u') :: rest =>
      if field_eqb k key then (key, u) :: rest
      else (k, u') :: map_set key u rest
  end.

(** ** [db] (test file, lines 8-18 and 83-93) *)

(** [async findUserByEmail(email) { return this.users.get(email) || null; }]:
    a stored user is an object, so it is truthy. *)
Definition db_findUserByEmail (email : field) : Op value World :=
  fun w =>
    (Resolves (match map_get email (users w) with
               | Some u => VUser u
               | None => VNull
               end), w).

(** [async saveUser(user)] of the first version:
    [const u = { ...user, id: Date.now() }]. *)
Definition db_saveUser (user : User) : Op value World :=
  fun w =>
    let u := mkUser (Some (now w)) (email user) (password user) in
    (Resolves (VUser u), mkWorld (map_set (email user) u (users w)) (now w)).

(** [async saveUser(user)] of the second version:
    [const u = { id: Date.now(), ...user }]. *)
Definition db_saveUser_spread_last (user : User) : Op value World :=
  fun w =>
    let u := mkUser (match id user with Some i => Some i | None => Some (now w) end)
               (email user) (password user) in
    (Resolves (VUser u), mkWorld (map_set (email user) u (users w)) (now w)).

(** ** Reading the input *)

(** [input.email], [input.password]: reading a property of [undefined]
    or [null] throws; any other value that is not a user object has no
    such property. *)
Definition read (which : User -> field) (input : value)
    : M value World field :=
  match input with
  | VUser u => ret (which u)
  | VUndefined | VNull => throw type_error
  | _ => ret Absent
  end.

(** [s.includes(sub)] *)
Definition includes (s sub : string) : bool :=
  match String.index 0 sub s with
  | Some _ => true
  | None => false
  end.

(** [email?.includes('@')] as a condition: [undefined] is falsy. *)
Definition email_has_at (email : field) : bool :=
  match email with
  | Str s => includes s "@"
  | _ => false
  end.

(** [password?.length < 8]: [undefined < 8] is false. *)
Definition password_too_short (password : field) : bool :=
  match password with
  | Str s => String.length s <? 8
  | _ => false
  end.

(** The conversion of a template literal. *)
Definition to_string (f : field) : string :=
  match f with
  | Absent => "undefined"
  | Null => "null"
  | Str s => s
  end.

(** The condition of [foundUser ? ... : ...]. *)
Definition truthy (v : value) : bool :=
  match v with
  | VUndefined | VNull => false
  | VBool b => b
  | VString s => negb (String.eqb s "")
  | VUser _ | VTypeError => true
  end.

(** ** The steps (test file, lines 20-48) *)

Definition validateRegistration : Fn value World :=
  fun input =>
    email <- read email input ;;
    password <- read password input ;;
    if negb (email_has_at email)
    then ret (Failure (VString "Invalid email format."))
    else if password_too_short password
    then ret (Failure (VString "Password must be at least 8 characters long."))
    else ret (Success input).

Definition cmdFindUser (email : field) : Op value World :=
  db_findUserByEmail email.

Definition findUserByEmail (email : field) : Effect value World :=
  let next := fun foundUser => ret (Success foundUser) in
  Command (cmdFindUser email) next.

Definition ensureEmailIsAvailable : Fn value World :=
  fun foundUser =>
    if truthy foundUser
    then ret (Failure (VString "Email already in use."))
    else ret (Success (VBool true)).

Definition userToSave (email password : field) : User :=
  mkUser None email (Str ("hashed_" ++ to_string password)).

Definition cmdSaveUser (email password : field) : Op value World :=
  db_saveUser (userToSave email password).

Definition saveUser : Fn value World :=
  fun input =>
    email <- read email input ;;
    password <- read password input ;;
    let next := fun savedUser => ret (Success savedUser) in
    ret (Command (cmdSaveUser email password) next).

(** ** [registerUserFlow] and [registerUser] (test file, lines 50-60) *)

Definition registerUserFlow : Fn value World :=
  fun input =>
    effectPipe type_error
      [ validateRegistration;
        (fun _ => email <- read email input ;; ret (findUserByEmail email));
        ensureEmailIsAvailable;
        (fun _ => saveUser input) ]
      input.

(** [return await runEffect(registerUserFlow(input))]: when building
    the flow throws, the promise of [registerUser] rejects. *)
Definition registerUser (fuel : nat) (input : value) (w : World)
    : option (completion value (Effect value World) * World) :=
  match registerUserFlow input w with
  | (Normal effect, w1) => runEffect type_error fuel effect w1
  | (Throw e, w1) => Some (Throw e, w1)
  end.

(** What the input must be for [validateRegistration] to accept it. *)
Definition accepted (u : User) : bool :=
  email_has_at (email u) && negb (password_too_short (password u)).

(** The record a successful registration saves and returns. *)
Definition saved (u : User) (w : World) : User :=
  mkUser (Some (now w)) (email u)
    (Str ("hashed_" ++ to_string (password u))).

(** The inputs of the two tests, and the [db] the tests start from. *)
Definition badInput : User := mkUser None (Str "bad-email") (Str "123").

Definition goodInput : User :=
  mkUser None (Str "test@test.com") (Str "password123").

Definition emptyDb (clock : nat) : World := mkWorld [] clock.

End Registration.

(** Evaluating the registration flow on an input whose e-mail test and
    password test are known. *)
Ltac evaluate_flow He Hp :=
  unfold Registration.registerUser, Registration.registerUserFlow,
    effectPipe, reduce;
  simpl; unfold bind at 1; unfold Registration.validateRegistration;
  simpl; unfold bind, ret; rewrite ?He, ?Hp; simpl.

(** Well-formedness of a concrete effect, constructor by constructor. *)
Ltac well_formed_by_cases :=
  repeat (constructor;
          try (let H := fresh "H" in
               intros ? ? ? ? H; inversion H; subst; clear H)).

(** * Properties *)

Section Facts.

Variables Val World : Type.
Variable type_error : Val.

Local Abbreviation Effect := (Effect Val World).
Local Abbreviation Fn := (Fn Val World).
Local Abbreviation Op := (Op Val World).
Local Abbreviation chain := (chain type_error).
Local Abbreviation effectPipe := (effectPipe type_error).
Local Abbreviation pipeline_fold := (pipeline_fold type_error).
Local Abbreviation pipeline_spec := (pipeline_spec type_error).
Local Abbreviation runEffect := (runEffect type_error).
Local Abbreviation runEffect_traced := (runEffect_traced type_error).
Local Abbreviation run_built := (run_built type_error).

(** ** Auxiliary lemmas *)

(** Induction on effects, through the continuation. *)
Lemma Effect_induction (P : Effect -> Prop)
    (HSuccess : forall value, P (Success value))
    (HFailure : forall error, P (Failure error))
    (HCommand : forall cmd next,
        (forall r w effect' w', next r w = (Normal effect', w') -> P effect') ->
        P (Command cmd next))
    (HForeign : forall type body, P (Foreign type body))
    (HUndefined : P Undefined)
    (HThenable : forall type then_,
        (forall w effect' w', then_ w = (Normal effect', w') -> P effect') ->
        P (Thenable type then_)) :
  forall effect, P effect.
Proof.
  fix IH 1. intros [value|error|cmd next|type body| |type then_].
  - apply HSuccess.
  - apply HFailure.
  - apply HCommand. intros r w effect' w' H.
    destruct (next r w) as [[a|e] w1].
    + assert (Ha : P a) by apply IH.
      inversion H. subst. exact Ha.
    + discriminate H.
  - apply HForeign.
  - apply HUndefined.
  - apply HThenable. intros w effect' w' H.
    destruct (then_ w) as [[a|e] w1].
    + assert (Ha : P a) by apply IH.
      inversion H. subst. exact Ha.
    + discriminate H.
Qed.

(** *** The monad *)

Lemma bind_ret_r (A : Type) (m : M Val World A) (w : World) :
  bind m (fun a => ret a) w = m w.
Proof.
  unfold bind, ret. destruct (m w) as [[a|e] w1]; reflexivity.
Qed.

Lemma bind_assoc (A B C : Type) (m : M Val World A)
    (f : A -> M Val World B) (g : B -> M Val World C) (w : World) :
  bind (bind m f) g w = bind m (fun a => bind (f a) g) w.
Proof.
  unfold bind. destruct (m w) as [[a|e] w1]; reflexivity.
Qed.

Lemma bind_ext (A B : Type) (m : M Val World A) (f g : A -> M Val World B)
    (w : World) :
  (forall a w1, f a w1 = g a w1) -> bind m f w = bind m g w.
Proof.
  intros H. unfold bind. destruct (m w) as [[a|e] w1]; [apply H | reflexivity].
Qed.

(** *** Equivalence *)

Lemma equiv_refl (effect : Effect) : equiv effect effect.
Proof.
  induction effect as [value|error|cmd next IH|type body| |type then_ IHt] using Effect_induction;
    constructor.
  intros r w. destruct (next r w) as [[a|e] w1] eqn:E.
  - constructor. exact (IH _ _ _ _ E).
  - constructor.
Qed.

Lemma same_completion_refl (p : completion Val Effect * World) :
  same_completion equiv p p.
Proof.
  destruct p as [[a|e] w]; constructor. apply equiv_refl.
Qed.

(** *** [reduce] against the fold *)

Lemma reduce_from_fold (suffix prefix : list Fn) (accumulator : Effect)
    (w : World) :
  reduce_from chain (prefix ++ suffix) (List.length suffix)
    (List.length prefix) accumulator w
  = pipeline_fold suffix accumulator w.
Proof.
  revert prefix accumulator w.
  induction suffix as [|step rest IH]; intros prefix accumulator w.
  - reflexivity.
  - simpl.
    rewrite nth_error_app2 by apply Nat.le_refl.
    rewrite Nat.sub_diag. simpl.
    apply bind_ext. intros acc w1.
    specialize (IH (prefix ++ [step]) acc w1).
    rewrite <- app_assoc in IH. cbn [app] in IH.
    rewrite length_app in IH. cbn [List.length] in IH.
    rewrite Nat.add_1_r in IH. exact IH.
Qed.

Lemma effectPipe_fold (fns : list Fn) (start : Val) (w : World) :
  effectPipe fns start w = pipeline_fold fns (Success start) w.
Proof.
  unfold effectPipe, reduce.
  exact (reduce_from_fold fns [] (Success start) w).
Qed.

(** *** The fold on a Failure and on a Command accumulator *)

Lemma pipeline_fold_Failure (steps : list Fn) (error : Val) (w : World) :
  pipeline_fold steps (Failure error) w = (Normal (Failure error), w).
Proof.
  induction steps as [|step rest IH]; [reflexivity | exact IH].
Qed.

Lemma pipeline_fold_Command (steps : list Fn) (cmd : Op)
    (next : Val -> M Val World Effect) (w : World) :
  exists next',
    pipeline_fold steps (Command cmd next) w = (Normal (Command cmd next'), w)
    /\ forall r w1,
         same_completion equiv
           (next' r w1)
           (bind (next r) (fun effect => pipeline_fold steps effect) w1).
Proof.
  revert next.
  induction steps as [|step rest IH]; intros next.
  - exists next. split; [reflexivity|].
    intros r w1. simpl.
    rewrite bind_ret_r. apply same_completion_refl.
  - destruct (IH (fun result => e <- next result ;; chain e step))
      as [next' [Hfold Hnext]].
    exists next'. split; [exact Hfold|].
    intros r w1. specialize (Hnext r w1).
    rewrite bind_assoc in Hnext. exact Hnext.
Qed.

(** *** The interpreter loop *)

(** On a thenable the loop is not entered: the returned promise adopts
    it. *)
Lemma runEffect_Thenable (fuel : nat) (type : string)
    (then_ : M Val World Effect) (w : World) :
  runEffect fuel (Thenable type then_) w
  = Some (resolve_with (Thenable type then_) w).
Proof. destruct fuel; reflexivity. Qed.

Lemma runEffect_traced_Thenable (fuel : nat) (type : string)
    (then_ : M Val World Effect) (w : World) (iters : nat) (ops : list Op) :
  runEffect_traced fuel (Thenable type then_) w iters ops
  = (let (settled_as, w1) := resolve_with (Thenable type then_) w in
     Some (mkRun settled_as w1 iters ops false)).
Proof. destruct fuel; reflexivity. Qed.

(** One full iteration of the loop: the operation succeeds and the
    continuation returns the next effect. *)
Lemma runEffect_traced_step (fuel : nat) (cmd : Op)
    (next : Val -> M Val World Effect) (w w1 w2 : World) (s : settled Val)
    (r : Val) (effect' : Effect) (iters : nat) (ops : list Op) :
  cmd w = (s, w1) -> await s = Normal r -> next r w1 = (Normal effect', w2) ->
  runEffect_traced (S fuel) (Command cmd next) w iters ops
  = runEffect_traced fuel effect' w2 (S iters) (ops ++ [cmd]).
Proof.
  intros Hcmd Hawait Hnext. simpl. rewrite Hcmd, Hawait, Hnext. reflexivity.
Qed.

(** The ghost counters do not change what the loop computes. *)
Lemma runEffect_traced_erase (fuel : nat) :
  forall (effect : Effect) (w : World) (iters : nat) (ops : list Op),
    runEffect fuel effect w
    = option_map (fun t => (result t, world t))
        (runEffect_traced fuel effect w iters ops).
Proof.
  induction fuel as [|fuel IH]; intros [value|error|cmd next|type body| |type then_] w iters ops;
    try (rewrite runEffect_Thenable, runEffect_traced_Thenable;
         destruct (resolve_with (Thenable type then_) w); reflexivity);
    simpl; try reflexivity.
  destruct (cmd w) as [s w1]. destruct (await s) as [r|e]; [|reflexivity].
  destruct (next r w1) as [[effect'|e] w2]; [apply IH | reflexivity].
Qed.

(** Every iteration calls exactly one operation. *)
Lemma runEffect_traced_counts (fuel : nat) :
  forall (effect : Effect) (w : World) (iters : nat) (ops : list Op) (t : Run Val World),
    runEffect_traced fuel effect w iters ops = Some t ->
    exists new,
      invoked t = ops ++ new
      /\ iterations t = iters + List.length new
      /\ List.length new <= fuel.
Proof.
  induction fuel as [|fuel IH]; intros [value|error|cmd next|type body| |type then_] w iters ops t H;
    try (rewrite runEffect_traced_Thenable in H;
         destruct (resolve_with (Thenable type then_) w));
    simpl in H; try discriminate H;
    try (injection H as <-; exists []; simpl;
         rewrite app_nil_r, Nat.add_0_r; repeat split; lia).
  destruct (cmd w) as [s w1]. destruct (await s) as [r|e].
  - destruct (next r w1) as [[effect'|e] w2].
    + destruct (IH _ _ _ _ _ H) as [new [Hops [Hiters Hlen]]].
      exists (cmd :: new). rewrite Hops, Hiters, <- app_assoc. simpl.
      repeat split; lia.
    + injection H as <-. exists [cmd]. simpl. repeat split; lia.
  - injection H as <-. exists [cmd]. simpl. repeat split; lia.
Qed.

(** The loop reaches its end on every effect, and more fuel changes
    nothing. *)
Lemma runEffect_traced_terminates (effect : Effect) :
  forall (w : World) (iters : nat) (ops : list Op),
    exists fuel t, forall fuel',
      fuel <= fuel' -> runEffect_traced fuel' effect w iters ops = Some t.
Proof.
  induction effect as [value|error|cmd next IH|type body| |type then_ IHt] using Effect_induction;
    intros w iters ops;
    try (exists 0; eexists; intros [|fuel'] _; reflexivity);
    try (destruct (resolve_with (Thenable type then_) w) as [settled_as wr] eqn:E;
         exists 0, (mkRun settled_as wr iters ops false); intros fuel' _;
         rewrite runEffect_traced_Thenable, E; reflexivity).
  destruct (cmd w) as [s w1] eqn:Hcmd. destruct (await s) as [r|e] eqn:Hawait.
  - destruct (next r w1) as [[effect'|e] w2] eqn:Hnext.
    + destruct (IH _ _ _ _ Hnext w2 (S iters) (ops ++ [cmd])) as [fuel [t Ht]].
      exists (S fuel), t. intros [|fuel'] Hle; [lia|].
      rewrite runEffect_traced_step with (1 := Hcmd) (2 := Hawait) (3 := Hnext).
      apply Ht. lia.
    + exists 1. eexists. intros [|fuel'] Hle; [lia|].
      simpl. rewrite Hcmd, Hawait, Hnext. reflexivity.
  - exists 1. eexists. intros [|fuel'] Hle; [lia|].
    simpl. rewrite Hcmd, Hawait. reflexivity.
Qed.

(** On a well-formed effect the promise resolves, with an Outcome. *)
Lemma runEffect_traced_outcome (fuel : nat) :
  forall (effect : Effect) (w : World) (iters : nat) (ops : list Op)
         (t : Run Val World),
    well_formed effect ->
    runEffect_traced fuel effect w iters ops = Some t ->
    exists o, result t = Normal o /\ is_outcome o = true.
Proof.
  induction fuel as [|fuel IH]; intros effect w iters ops t Hwf H;
    destruct Hwf as [value|error|cmd next Hnext]; simpl in H;
    try discriminate H;
    try (injection H as <-; eexists; split; reflexivity).
  destruct (cmd w) as [s w1]. destruct (await s) as [r|e].
  - destruct (next r w1) as [[effect'|e] w2] eqn:E.
    + exact (IH _ _ _ _ _ (Hnext _ _ _ _ E) H).
    + injection H as <-. eexists; split; reflexivity.
  - injection H as <-. eexists; split; reflexivity.
Qed.

(** Equivalent effects run alike. *)
Lemma runEffect_traced_equiv (fuel : nat) :
  forall (a b : Effect) (w : World) (iters : nat) (ops : list Op),
    equiv a b ->
    runEffect_traced fuel a w iters ops = runEffect_traced fuel b w iters ops.
Proof.
  induction fuel as [|fuel IH]; intros a b w iters ops H;
    inversion H as [value|error|cmd next1 next2 Hnext|type body| |type then_]; subst;
    simpl; try reflexivity.
  destruct (cmd w) as [s w1]. destruct (await s) as [r|e]; [|reflexivity].
  specialize (Hnext r w1).
  inversion Hnext as [a' b' w2 Hab H1 H2|e w2 H1 H2]; [apply IH; exact Hab | reflexivity].
Qed.

Lemma run_built_equiv (fuel : nat) (p q : completion Val Effect * World) :
  same_completion equiv p q -> run_built fuel p = run_built fuel q.
Proof.
  intros H. inversion H as [a b w Hab|e w]; subst; simpl; [|reflexivity].
  apply runEffect_traced_equiv. exact Hab.
Qed.

Lemma reduce_fold (fns : list Fn) (accumulator : Effect) (w : World) :
  reduce chain fns accumulator w = pipeline_fold fns accumulator w.
Proof.
  unfold reduce. exact (reduce_from_fold fns [] accumulator w).
Qed.

Lemma pipeline_fold_app (steps1 steps2 : list Fn) (accumulated : Effect)
    (w : World) :
  pipeline_fold (steps1 ++ steps2) accumulated w
  = bind (pipeline_fold steps1 accumulated)
      (fun effect => pipeline_fold steps2 effect) w.
Proof.
  revert accumulated w.
  induction steps1 as [|step rest IH]; intros accumulated w; simpl.
  - reflexivity.
  - rewrite bind_assoc. apply bind_ext. intros a w1. apply IH.
Qed.

Lemma pipeline_fold_succeeding (gs : list (Val -> World -> Val * World))
    (v : Val) (w : World) :
  pipeline_fold (map (@succeeding Val World) gs) (Success v) w
  = (let (v', w') := thread gs v w in (Normal (Success v'), w')).
Proof.
  revert v w. induction gs as [|g rest IH]; intros v w; simpl.
  - reflexivity.
  - unfold bind, succeeding at 1. destruct (g v w) as [v1 w1]. apply IH.
Qed.

(** An operation that fails ends the loop at once. *)
Lemma runEffect_traced_fault (fuel : nat) (cmd : Op)
    (next : Val -> M Val World Effect) (w w1 : World) (s : settled Val)
    (E : Val) (iters : nat) (ops : list Op) :
  cmd w = (s, w1) -> await s = Throw E ->
  runEffect_traced (S fuel) (Command cmd next) w iters ops
  = Some (mkRun (Normal (Failure E)) w1 (S iters) (ops ++ [cmd]) true).
Proof.
  intros Hcmd Hawait. simpl. rewrite Hcmd, Hawait. reflexivity.
Qed.

(** More fuel changes nothing once the loop has ended. *)
Lemma runEffect_traced_mono (fuel : nat) :
  forall (effect : Effect) (w : World) (iters : nat) (ops : list Op)
         (t : Run Val World) (fuel' : nat),
    runEffect_traced fuel effect w iters ops = Some t -> fuel <= fuel' ->
    runEffect_traced fuel' effect w iters ops = Some t.
Proof.
  induction fuel as [|fuel IH];
    intros [value|error|cmd next|type body| |type then_] w iters ops t fuel' H Hle;
    try (destruct fuel'; exact H); try discriminate H.
  destruct fuel' as [|fuel']; [lia|]. simpl in H |- *.
  destruct (cmd w) as [s w1]. destruct (await s) as [r|e]; [|exact H].
  destruct (next r w1) as [[effect'|e] w2]; [|exact H].
  apply IH with (1 := H). lia.
Qed.

(** The loop body is entered exactly [iterations] times: that much fuel
    is enough. *)
Lemma runEffect_traced_exact (fuel : nat) :
  forall (effect : Effect) (w : World) (iters : nat) (ops : list Op)
         (t : Run Val World),
    runEffect_traced fuel effect w iters ops = Some t ->
    runEffect_traced (iterations t - iters) effect w iters ops = Some t.
Proof.
  induction fuel as [|fuel IH];
    intros [value|error|cmd next|type body| |type then_] w iters ops t H;
    try (rewrite runEffect_traced_Thenable in H |- *; exact H);
    try (injection H as <-; simpl; rewrite Nat.sub_diag; reflexivity);
    try discriminate H.
  assert (Hcount := runEffect_traced_counts _ _ _ _ _ H).
  simpl in H.
  destruct (cmd w) as [s w1] eqn:Hcmd. destruct (await s) as [r|e] eqn:Hawait.
  - destruct (next r w1) as [[effect'|e] w2] eqn:Hnext.
    + assert (Hcount' := runEffect_traced_counts _ _ _ _ _ H).
      destruct Hcount' as [new [_ [Hiters _]]].
      replace (iterations t - iters) with (S (iterations t - S iters)) by lia.
      rewrite runEffect_traced_step with (1 := Hcmd) (2 := Hawait) (3 := Hnext).
      apply IH. exact H.
    + injection H as <-. cbn [iterations].
      replace (S iters - iters) with 1 by lia.
      simpl. rewrite Hcmd, Hawait, Hnext. reflexivity.
  - injection H as <-. cbn [iterations].
    replace (S iters - iters) with 1 by lia.
    simpl. rewrite Hcmd, Hawait. reflexivity.
Qed.

(** ** The interpreter *)

(** C1. On every well-formed effect (its chain of commands is finite:
    [Effect] is inductive) [runEffect] returns, and what it returns is
    an Outcome, Success or Failure, never a Command.  An Outcome that
    is the current effect, at the start or after any number of
    iterations, is returned as it is, without entering the loop again
    and without passing through [catch].  So is a Failure that a
    continuation returns, after any number of iterations: the iteration
    whose continuation returns it ends the loop with that Failure,
    uncaught.  Between the two, an iteration whose continuation returns
    an effect goes on with that effect. *)
Theorem runEffect_returns_outcome (effect : Effect) (w : World) :
  well_formed effect ->
  (exists fuel o w',
      (forall fuel', fuel <= fuel' ->
                     runEffect fuel' effect w = Some (Normal o, w'))
      /\ is_outcome o = true /\ is_command o = false)
  /\ (forall (o : Effect) (w0 : World) (fuel : nat),
        is_outcome o = true ->
        runEffect fuel o w0 = Some (Normal o, w0)
        /\ forall iters ops,
             runEffect_traced fuel o w0 iters ops
             = Some (mkRun (Normal o) w0 iters ops false))
  /\ (forall (cmd : Op) (next : Val -> M Val World Effect) (w0 w1 w2 : World)
             (s : settled Val) (r error : Val) (fuel : nat),
        cmd w0 = (s, w1) -> await s = Normal r ->
        next r w1 = (Normal (Failure error), w2) ->
        runEffect (S fuel) (Command cmd next) w0
        = Some (Normal (Failure error), w2)
        /\ forall iters ops,
             runEffect_traced (S fuel) (Command cmd next) w0 iters ops
             = Some (mkRun (Normal (Failure error)) w2 (S iters)
                       (ops ++ [cmd]) false))
  /\ (forall (cmd : Op) (next : Val -> M Val World Effect) (w0 w1 w2 : World)
             (s : settled Val) (r : Val) (effect' : Effect) (fuel : nat),
        cmd w0 = (s, w1) -> await s = Normal r ->
        next r w1 = (Normal effect', w2) ->
        runEffect (S fuel) (Command cmd next) w0 = runEffect fuel effect' w2
        /\ forall iters ops,
             runEffect_traced (S fuel) (Command cmd next) w0 iters ops
             = runEffect_traced fuel effect' w2 (S iters) (ops ++ [cmd])).
Proof.
  intros Hwf. split; [|split; [|split]].
  - destruct (runEffect_traced_terminates effect w 0 []) as [fuel [t Ht]].
    destruct (runEffect_traced_outcome _ _ _ _ Hwf (Ht fuel (Nat.le_refl _)))
      as [o [Hres Hout]].
    exists fuel, o, (world t). split; [|split].
    + intros fuel' Hle.
      rewrite (runEffect_traced_erase fuel' effect w 0 []), (Ht fuel' Hle).
      simpl. rewrite Hres. reflexivity.
    + exact Hout.
    + destruct o; try discriminate Hout; reflexivity.
  - intros o w0 fuel Hout.
    destruct o; try discriminate Hout; destruct fuel; split; reflexivity.
  - intros cmd next w0 w1 w2 s r error fuel Hcmd Hawait Hnext.
    assert (Ht : forall iters ops,
               runEffect_traced (S fuel) (Command cmd next) w0 iters ops
               = Some (mkRun (Normal (Failure error)) w2 (S iters)
                         (ops ++ [cmd]) false)).
    { intros iters ops.
      rewrite runEffect_traced_step with (1 := Hcmd) (2 := Hawait) (3 := Hnext).
      destruct fuel; reflexivity. }
    split; [|exact Ht].
    rewrite (runEffect_traced_erase (S fuel) (Command cmd next) w0 0 []), Ht.
    reflexivity.
  - intros cmd next w0 w1 w2 s r effect' fuel Hcmd Hawait Hnext.
    split.
    + simpl. rewrite Hcmd, Hawait, Hnext. reflexivity.
    + intros iters ops.
      apply runEffect_traced_step with (1 := Hcmd) (2 := Hawait) (3 := Hnext).
Qed.

(** C2. When the operation of a Command throws at the call, or the
    promise it returns rejects, with error [E], the loop stops in that
    iteration: [runEffect] returns [Failure E], with [E] itself as the
    payload, through [catch].  The world is the one the operation left,
    and the only operation called in that iteration is [cmd], whatever
    the continuation is and whatever steps were chained after the
    command: none of them runs. *)
Theorem runEffect_operation_fault (cmd : Op) (next : Val -> M Val World Effect)
    (w w1 : World) (s : settled Val) (E : Val) :
  cmd w = (s, w1) -> s = Throws E \/ s = Rejects E ->
  forall fuel,
    runEffect (S fuel) (Command cmd next) w = Some (Normal (Failure E), w1)
    /\ (forall iters ops,
          runEffect_traced (S fuel) (Command cmd next) w iters ops
          = Some (mkRun (Normal (Failure E)) w1 (S iters) (ops ++ [cmd]) true))
    /\ (forall fns, exists next',
          reduce chain fns (Command cmd next) w = (Normal (Command cmd next'), w)
          /\ runEffect (S fuel) (Command cmd next') w
             = Some (Normal (Failure E), w1)).
Proof.
  intros Hcmd Hs fuel.
  assert (Hawait : await s = Throw E) by (destruct Hs; subst s; reflexivity).
  assert (Hrun : forall next0,
             runEffect (S fuel) (Command cmd next0) w
             = Some (Normal (Failure E), w1)).
  { intros next0. simpl. rewrite Hcmd, Hawait. reflexivity. }
  split; [apply Hrun | split].
  - intros iters ops. apply runEffect_traced_fault with (s := s); assumption.
  - intros fns.
    destruct (pipeline_fold_Command fns cmd next w) as [next' [Hfold _]].
    exists next'. split; [|apply Hrun].
    rewrite reduce_fold. exact Hfold.
Qed.

(** C3. When the operation succeeds with [r] and the continuation
    applied to [r] throws [E], [runEffect] catches that too and returns
    [Failure E]: the [try] block holds the call of the operation and the
    call of the continuation. *)
Theorem runEffect_continuation_fault (cmd : Op)
    (next : Val -> M Val World Effect) (w w1 w2 : World) (s : settled Val)
    (r E : Val) :
  cmd w = (s, w1) -> s = Returns r \/ s = Resolves r ->
  next r w1 = (Throw E, w2) ->
  forall fuel,
    runEffect (S fuel) (Command cmd next) w = Some (Normal (Failure E), w2)
    /\ forall iters ops,
         runEffect_traced (S fuel) (Command cmd next) w iters ops
         = Some (mkRun (Normal (Failure E)) w2 (S iters) (ops ++ [cmd]) true).
Proof.
  intros Hcmd Hs Hnext fuel.
  assert (Hawait : await s = Normal r) by (destruct Hs; subst s; reflexivity).
  split; [|intros iters ops]; simpl; rewrite Hcmd, Hawait, Hnext; reflexivity.
Qed.

(** ** Chain and Pipeline *)

(** C4. If the first step of a pipeline returns [Failure e], the
    pipeline returns that [Failure e], and the world is the one the
    first step left, whatever the later steps are: they are not called.
    [chain] on a Failure returns it untouched and leaves the world as it
    was, whatever [fn] is. *)
Theorem effectPipe_short_circuit (s1 s2 s3 : Fn) (start e : Val)
    (w w1 : World) :
  s1 start w = (Normal (Failure e), w1) ->
  effectPipe [s1; s2; s3] start w = (Normal (Failure e), w1)
  /\ (forall rest : list Fn,
        effectPipe (s1 :: rest) start w = (Normal (Failure e), w1))
  /\ (forall (fn : Fn) (w' : World),
        chain (Failure e) fn w' = (Normal (Failure e), w')).
Proof.
  intros H1.
  assert (Hrest : forall rest,
             effectPipe (s1 :: rest) start w = (Normal (Failure e), w1)).
  { intros rest. rewrite effectPipe_fold. simpl. unfold bind. rewrite H1.
    apply pipeline_fold_Failure. }
  split; [apply Hrest | split; [exact Hrest | reflexivity]].
Qed.

(** C5. [effectPipe steps start] is the left fold that begins with
    [Success start] and replaces the accumulator with
    [chain accumulator step] for each step in order. *)
Theorem effectPipe_is_fold (steps : list Fn) (start : Val) (w : World) :
  effectPipe steps start w = pipeline_spec steps start w.
Proof.
  unfold pipeline_spec, effectPipe, reduce.
  change steps with ([] ++ steps) at 1.
  change 0 with (List.length (@nil Fn)).
  apply reduce_from_fold.
Qed.

(** C6. [chain] on [Command op cont] returns a Command with the same
    [op] and the continuation [result => chain (cont result) fn], and
    leaves the world as it was: neither [op], nor [cont], nor [fn] has
    run.  Folding any list of steps over a Command accumulator, as
    [effectPipe] does once a step has returned a Command, likewise gives
    a Command with the same [op] in an unchanged world; its
    continuation runs [cont] and then the remaining steps. *)
Theorem chain_Command_defers (op : Op) (cont : Val -> M Val World Effect)
    (fn : Fn) (w : World) :
  chain (Command op cont) fn w
  = (Normal (Command op (fun result => e <- cont result ;; chain e fn)), w)
  /\ (forall fns, exists cont',
        reduce chain fns (Command op cont) w = (Normal (Command op cont'), w)
        /\ forall r w1,
             same_completion equiv (cont' r w1)
               (bind (cont r) (fun e => reduce chain fns e) w1))
  /\ (forall step rest start w0,
        step start w0 = (Normal (Command op cont), w) ->
        exists cont',
          effectPipe (step :: rest) start w0 = (Normal (Command op cont'), w)).
Proof.
  split; [reflexivity | split].
  - intros fns.
    destruct (pipeline_fold_Command fns op cont w) as [cont' [Hfold Hcont]].
    exists cont'. split; [rewrite reduce_fold; exact Hfold|].
    intros r w1. specialize (Hcont r w1).
    rewrite bind_ext with (g := fun e => pipeline_fold fns e);
      [exact Hcont | intros a w2; apply reduce_fold].
  - intros step rest start w0 Hstep.
    destruct (pipeline_fold_Command rest op cont w) as [cont' [Hfold _]].
    exists cont'. rewrite effectPipe_fold. simpl. unfold bind at 1.
    rewrite Hstep. exact Hfold.
Qed.

(** C7. For a well-formed effect [e] and any [f] and [g],
    [chain (chain e f) g] and [chain e (x => chain (f x) g)] throw the
    same error or return equivalent effects, in the same world; run by
    the interpreter they give the same result, the same world and the
    same calls of operations. *)
Theorem chain_assoc (e : Effect) (f g : Fn) (w : World) :
  well_formed e ->
  same_completion equiv
    (bind (chain e f) (fun e1 => chain e1 g) w)
    (chain e (fun x => e1 <- f x ;; chain e1 g) w)
  /\ forall fuel,
       run_built fuel (bind (chain e f) (fun e1 => chain e1 g) w)
       = run_built fuel (chain e (fun x => e1 <- f x ;; chain e1 g) w).
Proof.
  intros Hwf.
  assert (H : same_completion equiv
                (bind (chain e f) (fun e1 => chain e1 g) w)
                (chain e (fun x => e1 <- f x ;; chain e1 g) w)).
  { revert w.
    induction Hwf as [value|error|cmd next Hnext IH]; intros w.
    - apply same_completion_refl.
    - apply same_completion_refl.
    - simpl. unfold bind at 1, ret. simpl. unfold ret.
      constructor. constructor. intros r w1.
      rewrite bind_assoc. unfold bind at 1 3.
      destruct (next r w1) as [[a|x] w2] eqn:E.
      + exact (IH _ _ _ _ E w2).
      + constructor. }
  split; [exact H | intros fuel; apply run_built_equiv; exact H].
Qed.

(** C8. [chain] on [Success value] is [fn value], as it is.  In a
    pipeline whose steps all return Success, each step is called with
    the value of the Success the step before it returned: the result is
    the Success of the value threaded through the steps, and a further
    step appended to them is called with that value.  Step by step: when
    the first step returns [Success v1], the pipeline goes on as the
    pipeline of the remaining steps started on [v1]. *)
Theorem effectPipe_success_threading :
  (forall (value : Val) (fn : Fn) (w : World),
      chain (Success value) fn w = fn value w)
  /\ (forall (gs : list (Val -> World -> Val * World)) (start : Val) (w : World),
        effectPipe (map (@succeeding Val World) gs) start w
        = (let (v, w') := thread gs start w in (Normal (Success v), w')))
  /\ (forall (gs : list (Val -> World -> Val * World)) (step : Fn)
             (start : Val) (w : World),
        effectPipe (map (@succeeding Val World) gs ++ [step]) start w
        = (let (v, w') := thread gs start w in step v w'))
  /\ (forall (step : Fn) (rest : list Fn) (start v1 : Val) (w w1 : World),
        step start w = (Normal (Success v1), w1) ->
        effectPipe (step :: rest) start w = effectPipe rest v1 w1).
Proof.
  split; [reflexivity | split; [|split]].
  3: { intros step rest start v1 w w1 Hstep.
       rewrite !effectPipe_fold. simpl. unfold bind at 1.
       rewrite Hstep. reflexivity. }
  - intros gs start w. rewrite effectPipe_fold. apply pipeline_fold_succeeding.
  - intros gs step start w.
    rewrite effectPipe_fold, pipeline_fold_app. unfold bind at 1.
    rewrite pipeline_fold_succeeding.
    destruct (thread gs start w) as [v w']. simpl. apply bind_ret_r.
Qed.

(** ** Termination and ill-formed input *)

(** C9. [runEffect] terminates on every effect (a chain of commands
    held by an [Effect] is finite): there is a run [t] that the loop
    reaches with exactly [iterations t] entries of its body, no fewer;
    the number of iterations equals the number of operations called.
    When an operation fails, whatever ran before it, it is the last
    operation called: the commands after it are not invoked. *)
Theorem runEffect_terminates (effect : Effect) (w : World) :
  exists t,
    runEffect_traced (iterations t) effect w 0 [] = Some t
    /\ (forall fuel, iterations t <= fuel ->
          runEffect_traced fuel effect w 0 [] = Some t
          /\ runEffect fuel effect w = Some (result t, world t))
    /\ (forall fuel, fuel < iterations t -> runEffect fuel effect w = None)
    /\ iterations t = List.length (invoked t)
    /\ (forall (cmd : Op) (next : Val -> M Val World Effect) (w0 w1 : World)
               (s : settled Val) (E : Val) (fuel iters : nat) (ops : list Op),
          cmd w0 = (s, w1) -> await s = Throw E ->
          runEffect_traced (S fuel) (Command cmd next) w0 iters ops
          = Some (mkRun (Normal (Failure E)) w1 (S iters) (ops ++ [cmd]) true)).
Proof.
  destruct (runEffect_traced_terminates effect w 0 []) as [fuel0 [t Ht]].
  assert (H0 := Ht fuel0 (Nat.le_refl _)).
  assert (Hexact := runEffect_traced_exact _ _ _ _ _ H0).
  rewrite Nat.sub_0_r in Hexact.
  exists t. split; [exact Hexact | split; [|split; [|split]]].
  - intros fuel Hle.
    assert (Hfuel := runEffect_traced_mono _ _ _ _ Hexact Hle).
    split; [exact Hfuel|].
    rewrite (runEffect_traced_erase fuel effect w 0 []), Hfuel. reflexivity.
  - intros fuel Hlt.
    rewrite (runEffect_traced_erase fuel effect w 0 []).
    destruct (runEffect_traced fuel effect w 0 []) as [t'|] eqn:E'; [|reflexivity].
    exfalso.
    destruct (runEffect_traced_counts _ _ _ _ _ E') as [new [_ [Hiters Hlen]]].
    assert (Hmax := runEffect_traced_mono _ _ _ _ E' (Nat.le_max_l fuel fuel0)).
    rewrite (Ht _ (Nat.le_max_r fuel fuel0)) in Hmax.
    injection Hmax as ->. simpl in Hiters. lia.
  - destruct (runEffect_traced_counts _ _ _ _ _ H0) as [new [Hops [Hiters _]]].
    rewrite Hops, Hiters. reflexivity.
  - intros cmd next w0 w1 s E fuel iters ops Hcmd Hawait.
    apply runEffect_traced_fault with (s := s); assumption.
Qed.

(** C10, as amended. On an object whose [type] is none of
    ['Success'], ['Failure'], ['Command'], [chain] returns [undefined]
    (no case of the [switch] matches and there is no default) without
    calling [fn].  [runEffect] does not enter its loop and resolves its
    promise with the object: when the object has no callable [then] it
    is returned unchanged, although it is not an Outcome; when it has
    one, the promise adopts it and settles as the thenable does. *)
Theorem foreign_object_passes_through (effect : Effect) (type : string)
    (fn : Fn) (w : World) :
  type_of effect = Some type ->
  type <> "Success"%string -> type <> "Failure"%string ->
  type <> "Command"%string ->
  chain effect fn w = (Normal Undefined, w)
  /\ (is_thenable effect = false ->
      forall fuel, runEffect fuel effect w = Some (Normal effect, w))
  /\ (forall fuel, runEffect fuel effect w = Some (resolve_with effect w))
  /\ (forall type' then_, effect = Thenable type' then_ ->
        forall fuel,
          runEffect fuel effect w
          = Some (match then_ w with
                  | (Normal v, w1) => resolve_with v w1
                  | (Throw e, w1) => (Throw e, w1)
                  end))
  /\ is_outcome effect = false.
Proof.
  intros Htype HS HF HC.
  destruct effect as [value|error|cmd next|type' body| |type' then_];
    simpl in Htype;
    try (injection Htype as <-; congruence); try discriminate Htype.
  - split; [reflexivity | split; [intros _ [|fuel]; reflexivity | split]].
    + intros [|fuel]; reflexivity.
    + split; [intros ? ? H; discriminate H | reflexivity].
  - split; [reflexivity | split; [intros H; discriminate H | split]].
    + intros fuel. apply runEffect_Thenable.
    + split; [|reflexivity].
      intros type'' then_' H fuel. injection H as <- <-.
      rewrite runEffect_Thenable. reflexivity.
Qed.

End Facts.

(** * The properties on the registration flow *)

Open Scope string_scope.

Lemma findUserByEmail_well_formed : well_formed Demo.findUserByEmail.
Proof. unfold Demo.findUserByEmail. well_formed_by_cases. Qed.

Lemma findThenReject_well_formed : well_formed Demo.findThenReject.
Proof. unfold Demo.findThenReject. well_formed_by_cases. Qed.

(** The first test of the suite: an invalid e-mail gives the Failure of
    the validation, and only the validation has run. *)
Example registerUser_invalid_email :
  Demo.registerUserFlow "bad-email" []
  = (Normal (Failure "Invalid email format."), ["validateRegistration"]).
Proof. reflexivity. Qed.

(** The second test: the flow is a Command for [cmdFindUser], and its
    continuation on [null] gives a Command for [cmdSaveUser]. *)
Example registerUser_call_tree :
  exists next1 next2 w1 w2,
    Demo.registerUserFlow "test@test.com" []
    = (Normal (Command Demo.cmdFindUser next1), w1)
    /\ next1 "null" w1 = (Normal (Command Demo.cmdSaveUser next2), w2).
Proof. repeat eexists. Qed.

(** Interpreting the flow calls the two operations in order. *)
Example registerUser_runs :
  run_built Demo.type_error 2 (Demo.registerUserFlow "test@test.com" [])
  = Some (mkRun (Normal (Success "savedRecord"))
            ["validateRegistration"; "findUserByEmail"; "cmdFindUser";
             "ensureEmailIsAvailable"; "saveUser"; "cmdSaveUser"]
            2 [Demo.cmdFindUser; Demo.cmdSaveUser] false).
Proof. reflexivity. Qed.

(** Associativity does not extend to an object outside the three
    variants: chained twice it throws, chained once with the composed
    function it gives [undefined]. *)
Example chain_assoc_beyond_variants :
  bind (chain Demo.type_error Demo.pending Demo.validateRegistration)
    (fun e1 => chain Demo.type_error e1 Demo.ensureEmailIsAvailable) []
  = (Throw Demo.type_error, [])
  /\ chain Demo.type_error Demo.pending
       (fun x => e1 <- Demo.validateRegistration x ;;
                 chain Demo.type_error e1 Demo.ensureEmailIsAvailable) []
     = (Normal Undefined, []).
Proof. split; reflexivity. Qed.

(** The law needs the continuations to return effects of the three
    variants as well: with a continuation that returns another object,
    the left side ends in a caught [TypeError], the right side in a
    rejected promise. *)
Example chain_assoc_needs_well_formed_next :
  let e := Command Demo.cmdFindUser (fun _ => ret Demo.pending) in
  run_built Demo.type_error 1
    (bind (chain Demo.type_error e Demo.validateRegistration)
       (fun e1 => chain Demo.type_error e1 Demo.ensureEmailIsAvailable) [])
  = Some (mkRun (Normal (Failure Demo.type_error)) ["cmdFindUser"] 1
            [Demo.cmdFindUser] true)
  /\ run_built Demo.type_error 1
       (chain Demo.type_error e
          (fun x => e1 <- Demo.validateRegistration x ;;
                    chain Demo.type_error e1 Demo.ensureEmailIsAvailable) [])
     = Some (mkRun (Throw Demo.type_error) ["cmdFindUser"] 1
               [Demo.cmdFindUser] false).
Proof. split; reflexivity. Qed.

(** Steps that only succeed pass their values on. *)
Example effectPipe_threads_values :
  effectPipe Demo.type_error
    (map (@succeeding Demo.Val Demo.World) [Demo.appendBang; Demo.appendHash])
    "a" []
  = (Normal (Success "a!#"), ["appendBang"; "appendHash"]).
Proof. reflexivity. Qed.

(** An operation that throws at the call, before a second command. *)
Example runEffect_throwing_operation :
  runEffect_traced Demo.type_error 1 Demo.throwsThenSaves [] 0 []
  = Some (mkRun (Normal (Failure "boom")) ["cmdThrows"] 1 [Demo.cmdThrows] true).
Proof. reflexivity. Qed.

(** Two commands take two iterations. *)
Example runEffect_two_commands :
  runEffect Demo.type_error 1 Demo.findThenSave [] = None
  /\ runEffect Demo.type_error 2 Demo.findThenSave []
     = Some (Normal (Success "savedRecord"), ["cmdFindUser"; "cmdSaveUser"]).
Proof. split; reflexivity. Qed.

Lemma runEffect_returns_outcome_witness :
  well_formed Demo.findThenReject
  /\ (exists fuel o w',
        (forall fuel', fuel <= fuel' ->
           runEffect Demo.type_error fuel' Demo.findThenReject []
           = Some (Normal o, w'))
        /\ is_outcome o = true /\ is_command o = false)
  /\ runEffect_traced Demo.type_error 1 Demo.findThenReject [] 0 []
     = Some (mkRun (Normal (Failure "Email already in use."))
               ["cmdFindUser"] 1 [Demo.cmdFindUser] false).
Proof.
  pose proof (runEffect_returns_outcome Demo.type_error []
                findThenReject_well_formed) as [Hrun [_ [Hdata _]]].
  split; [exact findThenReject_well_formed | split; [exact Hrun|]].
  exact (proj2 (Hdata Demo.cmdFindUser
                  (fun _ => ret (Failure "Email already in use."))
                  [] ["cmdFindUser"] ["cmdFindUser"] (Resolves "null")
                  "null" "Email already in use." 0
                  eq_refl eq_refl eq_refl) 0 []).
Defined.

Lemma runEffect_operation_fault_witness :
  Demo.cmdRejects [] = (Rejects "db down", ["cmdRejects"])
  /\ (Rejects "db down" = Throws "db down"
      \/ Rejects (Val := Demo.Val) "db down" = Rejects "db down")
  /\ runEffect Demo.type_error 1 Demo.rejectsThenSaves []
     = Some (Normal (Failure "db down"), ["cmdRejects"])
  /\ runEffect_traced Demo.type_error 1 Demo.rejectsThenSaves [] 0 []
     = Some (mkRun (Normal (Failure "db down")) ["cmdRejects"] 1
               [Demo.cmdRejects] true).
Proof.
  pose proof (runEffect_operation_fault Demo.type_error Demo.cmdRejects
                (fun _ => ret Demo.saveUser) []
                (eq_refl : Demo.cmdRejects [] = (Rejects "db down", ["cmdRejects"]))
                (or_intror eq_refl) 0) as [Hrun [Htraced _]].
  split; [reflexivity | split; [right; reflexivity | split]].
  - exact Hrun.
  - exact (Htraced 0 []).
Defined.

Lemma runEffect_continuation_fault_witness :
  Demo.cmdFindUser [] = (Resolves "null", ["cmdFindUser"])
  /\ (Resolves "null" = Returns "null"
      \/ Resolves (Val := Demo.Val) "null" = Resolves "null")
  /\ throw (World := Demo.World) (A := Effect Demo.Val Demo.World)
       "next failed" ["cmdFindUser"]
     = (Throw "next failed", ["cmdFindUser"])
  /\ runEffect Demo.type_error 1 Demo.brokenNext []
     = Some (Normal (Failure "next failed"), ["cmdFindUser"]).
Proof.
  split; [reflexivity | split; [right; reflexivity | split; [reflexivity|]]].
  exact (proj1 (runEffect_continuation_fault Demo.type_error Demo.cmdFindUser
                  (fun _ => throw "next failed") []
                  (eq_refl : Demo.cmdFindUser [] = (Resolves "null", ["cmdFindUser"]))
                  (or_intror eq_refl)
                  (eq_refl : throw "next failed" ["cmdFindUser"]
                             = (Throw "next failed", ["cmdFindUser"]))
                  0)).
Defined.

Lemma effectPipe_short_circuit_witness :
  Demo.validateRegistration "bad-email" []
  = (Normal (Failure "Invalid email format."), ["validateRegistration"])
  /\ effectPipe Demo.type_error
       [Demo.validateRegistration;
        Demo.spy "findUserByEmail" (fun _ => ret Demo.findUserByEmail);
        Demo.ensureEmailIsAvailable] "bad-email" []
     = (Normal (Failure "Invalid email format."), ["validateRegistration"]).
Proof.
  split; [reflexivity|].
  exact (proj1 (effectPipe_short_circuit Demo.type_error
                  Demo.validateRegistration
                  (Demo.spy "findUserByEmail" (fun _ => ret Demo.findUserByEmail))
                  Demo.ensureEmailIsAvailable "bad-email" []
                  (eq_refl : Demo.validateRegistration "bad-email" []
                             = (Normal (Failure "Invalid email format."),
                                ["validateRegistration"])))).
Defined.

Lemma chain_assoc_witness :
  well_formed Demo.findUserByEmail
  /\ run_built Demo.type_error 2
       (bind (chain Demo.type_error Demo.findUserByEmail
                Demo.ensureEmailIsAvailable)
          (fun e1 => chain Demo.type_error e1
                       (Demo.spy "saveUser" (fun _ => ret Demo.saveUser))) [])
     = run_built Demo.type_error 2
         (chain Demo.type_error Demo.findUserByEmail
            (fun x => e1 <- Demo.ensureEmailIsAvailable x ;;
                      chain Demo.type_error e1
                        (Demo.spy "saveUser" (fun _ => ret Demo.saveUser))) []).
Proof.
  split; [exact findUserByEmail_well_formed|].
  exact (proj2 (chain_assoc Demo.type_error Demo.ensureEmailIsAvailable
                  (Demo.spy "saveUser" (fun _ => ret Demo.saveUser)) []
                  findUserByEmail_well_formed) 2).
Defined.

Lemma foreign_object_passes_through_witness :
  type_of Demo.pending = Some "Pending"
  /\ "Pending" <> "Success" /\ "Pending" <> "Failure" /\ "Pending" <> "Command"
  /\ is_thenable Demo.pending = false
  /\ chain Demo.type_error Demo.pending Demo.validateRegistration []
     = (Normal Undefined, [])
  /\ runEffect Demo.type_error 0 Demo.pending [] = Some (Normal Demo.pending, [])
  /\ is_outcome Demo.pending = false.
Proof.
  assert (HS : "Pending" <> "Success") by discriminate.
  assert (HF : "Pending" <> "Failure") by discriminate.
  assert (HC : "Pending" <> "Command") by discriminate.
  pose proof (foreign_object_passes_through Demo.type_error Demo.pending
                Demo.validateRegistration [] eq_refl HS HF HC)
    as [Hchain [Hrun [_ [_ Hout]]]].
  exact (conj eq_refl (conj HS (conj HF (conj HC (conj eq_refl
           (conj Hchain (conj (Hrun eq_refl 0) Hout))))))).
Defined.

(** C10 as first stated fails on a thenable: the promise an [async]
    continuation returns has no variant tag, yet [runEffect] does not
    return it unchanged; it resolves with the Command the promise is
    fulfilled with, which has not been run. *)
Lemma foreign_object_returned_unchanged_counterexample :
  type_of Demo.promised = Some "Promise"
  /\ "Promise" <> "Success" /\ "Promise" <> "Failure" /\ "Promise" <> "Command"
  /\ runEffect Demo.type_error 0 Demo.promised [] = Some (Normal Demo.saveUser, [])
  /\ runEffect Demo.type_error 0 Demo.promised []
     <> Some (Normal Demo.promised, []).
Proof.
  repeat (split; [first [reflexivity | discriminate]|]).
  intros H. discriminate H.
Qed.

(** A command whose continuation is [async]: [runEffect] runs the
    find operation and resolves with the Command for the save
    operation, unrun; interpreting that result runs it. *)
Example runEffect_async_continuation :
  runEffect_traced Demo.type_error 1 Demo.findThenAsync [] 0 []
  = Some (mkRun (Normal Demo.saveUser) ["cmdFindUser"] 1 [Demo.cmdFindUser] false)
  /\ runEffect Demo.type_error 1 Demo.saveUser ["cmdFindUser"]
     = Some (Normal (Success "savedRecord"), ["cmdFindUser"; "cmdSaveUser"]).
Proof. split; reflexivity. Qed.

(** * Composition laws *)

Section Composition.

Variables Val World : Type.
Variable type_error : Val.

Local Abbreviation Effect := (Effect Val World).
Local Abbreviation Fn := (Fn Val World).
Local Abbreviation Op := (Op Val World).
Local Abbreviation chain := (chain type_error).
Local Abbreviation effectPipe := (effectPipe type_error).
Local Abbreviation pipeline_fold := (pipeline_fold type_error).
Local Abbreviation runEffect := (runEffect type_error).
Local Abbreviation runEffect_traced := (runEffect_traced type_error).
Local Abbreviation run_built := (run_built type_error).
Local Abbreviation resume := (resume type_error).

(** ** Auxiliary lemmas *)

Lemma chain_well_formed (effect : Effect) (fn : Fn) :
  well_formed effect -> well_formed_fn fn ->
  forall w effect' w',
    chain effect fn w = (Normal effect', w') -> well_formed effect'.
Proof.
  intros Hwf Hfn.
  induction Hwf as [value|error|cmd next Hnext IH]; intros w effect' w' H.
  - exact (Hfn _ _ _ _ H).
  - inversion H. constructor.
  - inversion H. subst. constructor. intros r w1 e2 w2 H2.
    unfold bind in H2. destruct (next r w1) as [[a|x] w3] eqn:E.
    + exact (IH _ _ _ _ E _ _ _ H2).
    + discriminate H2.
Qed.

Lemma pipeline_fold_well_formed (steps : list Fn) :
  Forall (@well_formed_fn Val World) steps ->
  forall accumulated w effect w',
    well_formed accumulated ->
    pipeline_fold steps accumulated w = (Normal effect, w') ->
    well_formed effect.
Proof.
  induction 1 as [|step rest Hstep _ IH]; intros accumulated w effect w' Hwf H.
  - inversion H. subst. exact Hwf.
  - simpl in H. unfold bind in H.
    destruct (chain accumulated step w) as [[a|x] w1] eqn:E; [|discriminate H].
    exact (IH _ _ _ _ (chain_well_formed Hwf Hstep _ E) H).
Qed.

Lemma well_formed_thenable_free (effect : Effect) :
  well_formed effect -> thenable_free effect.
Proof.
  induction 1 as [value|error|cmd next Hnext IH]; constructor.
  exact IH.
Qed.

Lemma resume_Command (fuel : nat) (cmd : Op) (next : Val -> M Val World Effect)
    (w w1 : World) (s : settled Val) (r : Val) (iters : nat) (ops : list Op) :
  cmd w = (s, w1) -> await s = Normal r ->
  runEffect_traced (S fuel) (Command cmd next) w iters ops
  = resume fuel (next r w1) (S iters) (ops ++ [cmd]).
Proof.
  intros Hcmd Hawait. simpl. rewrite Hcmd, Hawait.
  destruct (next r w1) as [[a|x] w2]; reflexivity.
Qed.

Lemma resume_mono (fuel fuel' : nat) (given : completion Val Effect * World)
    (iters : nat) (ops : list Op) (t : Run Val World) :
  resume fuel given iters ops = Some t -> fuel <= fuel' ->
  resume fuel' given iters ops = Some t.
Proof.
  destruct given as [[a|x] w]; simpl; intros H Hle; [|exact H].
  eapply runEffect_traced_mono; eassumption.
Qed.

(** The run of [chain effect fn], once [effect] has run to a Success. *)
Lemma resume_chain_Success (fn : Fn) (v : Val) (f2 : nat) (t2 : Run Val World)
    (f1 : nat) :
  forall (effect : Effect) (w : World) (iters : nat) (ops : list Op)
         (t1 : Run Val World),
    thenable_free effect ->
    runEffect_traced f1 effect w iters ops = Some t1 ->
    result t1 = Normal (Success v) ->
    resume f2 (fn v (world t1)) (iterations t1) (invoked t1) = Some t2 ->
    resume (f1 + f2) (chain effect fn w) iters ops = Some t2.
Proof.
  induction f1 as [|f1 IH];
    intros effect w iters ops t1 Hfree H1 Hres H2;
    destruct Hfree as [value|error|cmd next Hfree|type body|];
    simpl in H1; try discriminate H1;
    try (injection H1 as <-; simpl in Hres; try discriminate Hres;
         injection Hres as ->; simpl in H2 |- *;
         apply resume_mono with (1 := H2); lia).
  destruct (cmd w) as [s w1] eqn:Hcmd. destruct (await s) as [r|e] eqn:Hawait.
  - destruct (next r w1) as [[e1|e] w2] eqn:Hnext.
    + change (resume (S f1 + f2) (chain (Command cmd next) fn w) iters ops)
        with (runEffect_traced (S (f1 + f2))
                (Command cmd (fun result => e <- next result ;; chain e fn))
                w iters ops).
      rewrite resume_Command with (1 := Hcmd) (2 := Hawait).
      unfold bind. rewrite Hnext.
      exact (IH _ _ _ _ _ (Hfree _ _ _ _ Hnext) H1 Hres H2).
    + injection H1 as <-. discriminate Hres.
  - injection H1 as <-. discriminate Hres.
Qed.

(** The run of [chain effect fn], once [effect] has run to a Failure. *)
Lemma resume_chain_Failure (fn : Fn) (x : Val) (f1 : nat) :
  forall (effect : Effect) (w : World) (iters : nat) (ops : list Op)
         (t1 : Run Val World),
    thenable_free effect ->
    runEffect_traced f1 effect w iters ops = Some t1 ->
    result t1 = Normal (Failure x) ->
    resume f1 (chain effect fn w) iters ops = Some t1.
Proof.
  induction f1 as [|f1 IH];
    intros effect w iters ops t1 Hfree H1 Hres;
    destruct Hfree as [value|error|cmd next Hfree|type body|];
    simpl in H1; try discriminate H1;
    try (injection H1 as <-; simpl in Hres; try discriminate Hres;
         reflexivity).
  change (resume (S f1) (chain (Command cmd next) fn w) iters ops)
    with (runEffect_traced (S f1)
            (Command cmd (fun result => e <- next result ;; chain e fn))
            w iters ops).
  destruct (cmd w) as [s w1] eqn:Hcmd. destruct (await s) as [r|e] eqn:Hawait.
  - rewrite resume_Command with (1 := Hcmd) (2 := Hawait).
    unfold bind. destruct (next r w1) as [[e1|e] w2] eqn:Hnext.
    + exact (IH _ _ _ _ _ (Hfree _ _ _ _ Hnext) H1 Hres).
    + exact H1.
  - simpl. rewrite Hcmd, Hawait. exact H1.
Qed.

Lemma chain_Command (cmd : Op) (next : Val -> M Val World Effect) (fn : Fn)
    (w : World) :
  chain (Command cmd next) fn w
  = (Normal (Command cmd (fun result => e <- next result ;; chain e fn)), w).
Proof. reflexivity. Qed.

(** ** Interpreting a chained effect *)

(** X1. For a command whose continuations return no thenable,
    interpreting [chain (Command cmd next) fn] first does what
    interpreting the command does; when that ends in [Success v], it
    calls [fn v] in the world reached and goes on with the effect [fn]
    returns: the iterations and the operations called are those of the
    first run followed by those of the second. *)
Theorem runEffect_chain_in_sequence (cmd : Op)
    (next : Val -> M Val World Effect) (fn : Fn) (w w2 : World)
    (iters : nat) (ops : list Op) (f1 f2 : nat) (t1 t2 : Run Val World)
    (v : Val) (e2 : Effect) :
  thenable_free (Command cmd next) ->
  runEffect_traced f1 (Command cmd next) w iters ops = Some t1 ->
  result t1 = Normal (Success v) ->
  fn v (world t1) = (Normal e2, w2) ->
  runEffect_traced f2 e2 w2 (iterations t1) (invoked t1) = Some t2 ->
  exists chained,
    chain (Command cmd next) fn w = (Normal chained, w)
    /\ runEffect_traced (f1 + f2) chained w iters ops = Some t2.
Proof.
  intros Hfree H1 Hres Hfn H2. eexists. split; [apply chain_Command|].
  assert (H := @resume_chain_Success fn v f2 t2 f1 _ _ _ _ _ Hfree H1 Hres).
  rewrite Hfn in H. exact (H H2).
Qed.

(** X2. For a command whose continuations return no thenable: when
    interpreting it ends in a Failure, interpreting the command chained
    with any [fn] gives the very same run, with the same number of
    iterations: [fn] is not called. *)
Theorem runEffect_chain_after_Failure (cmd : Op)
    (next : Val -> M Val World Effect) (fn : Fn) (w : World)
    (iters : nat) (ops : list Op) (f1 : nat) (t1 : Run Val World) (x : Val) :
  thenable_free (Command cmd next) ->
  runEffect_traced f1 (Command cmd next) w iters ops = Some t1 ->
  result t1 = Normal (Failure x) ->
  exists chained,
    chain (Command cmd next) fn w = (Normal chained, w)
    /\ runEffect_traced f1 chained w iters ops = Some t1.
Proof.
  intros Hfree H1 Hres. eexists. split; [apply chain_Command|].
  exact (@resume_chain_Failure fn x f1 _ _ _ _ _ Hfree H1 Hres).
Qed.

(** X3. A step that throws after a command has run is caught by the
    interpreter: when the command, whose continuations return no
    thenable, ends in [Success v] and [fn v] throws
    [E], the chained effect runs to [Failure E] through [catch], in the
    world [fn] left, with no further iteration.  Chained on a Success,
    before any command, the same throw escapes [chain]. *)
Theorem runEffect_chain_step_throws (cmd : Op)
    (next : Val -> M Val World Effect) (fn : Fn) (w w2 : World)
    (iters : nat) (ops : list Op) (f1 : nat) (t1 : Run Val World)
    (v E : Val) :
  thenable_free (Command cmd next) ->
  runEffect_traced f1 (Command cmd next) w iters ops = Some t1 ->
  result t1 = Normal (Success v) ->
  fn v (world t1) = (Throw E, w2) ->
  (exists chained,
      chain (Command cmd next) fn w = (Normal chained, w)
      /\ runEffect_traced f1 chained w iters ops
         = Some (mkRun (Normal (Failure E)) w2 (iterations t1) (invoked t1) true))
  /\ chain (Success v) fn (world t1) = (Throw E, w2).
Proof.
  intros Hfree H1 Hres Hfn. split; [|exact Hfn].
  eexists. split; [apply chain_Command|].
  assert (H := @resume_chain_Success fn v 0
                 (mkRun (Normal (Failure E)) w2 (iterations t1) (invoked t1) true)
                 f1 _ _ _ _ _ Hfree H1 Hres).
  rewrite Hfn, Nat.add_0_r in H. exact (H eq_refl).
Qed.

(** With no thenable in play, the result of the loop is an effect the
    loop leaves alone. *)
Lemma runEffect_result_stable (fuel : nat) :
  forall (effect : Effect) (w : World) (o : Effect) (w' : World),
    thenable_free effect ->
    runEffect fuel effect w = Some (Normal o, w') ->
    forall fuel2 w2 iters ops,
      runEffect_traced fuel2 o w2 iters ops
      = Some (mkRun (Normal o) w2 iters ops false).
Proof.
  induction fuel as [|fuel IH];
    intros effect w o w' Hfree H;
    destruct Hfree as [value|error|cmd next Hfree|type body|];
    simpl in H; try discriminate H;
    try (injection H as <- <-; intros [|fuel2] w2 iters ops; reflexivity).
  destruct (cmd w) as [s w1]. destruct (await s) as [r|e].
  - destruct (next r w1) as [[e1|e] w2] eqn:Hnext.
    + exact (IH _ _ _ _ (Hfree _ _ _ _ Hnext) H).
    + injection H as <- <-. intros [|fuel2] w3 iters ops; reflexivity.
  - injection H as <- <-. intros [|fuel2] w3 iters ops; reflexivity.
Qed.

(** ** Well-formed pipelines *)

(** X4. A pipeline whose steps all return well-formed effects returns a
    well-formed effect, and interpreting that effect resolves with an
    Outcome. *)
Theorem effectPipe_well_formed (fns : list Fn) (start : Val) (w w' : World)
    (effect : Effect) :
  Forall (@well_formed_fn Val World) fns ->
  effectPipe fns start w = (Normal effect, w') ->
  well_formed effect
  /\ exists fuel o w'',
       (forall fuel', fuel <= fuel' ->
                      runEffect fuel' effect w' = Some (Normal o, w''))
       /\ is_outcome o = true.
Proof.
  intros Hfns H. rewrite effectPipe_fold in H.
  assert (Hwf : well_formed effect).
  { eapply (pipeline_fold_well_formed Hfns); [|exact H]. constructor. }
  split; [exact Hwf|].
  destruct (runEffect_traced_terminates type_error effect w' 0 [])
    as [fuel [t Ht]].
  destruct (runEffect_traced_outcome type_error fuel _ _ _ Hwf
              (Ht fuel (Nat.le_refl _))) as [o [Hres Hout]].
  exists fuel, o, (world t). split; [|exact Hout].
  intros fuel' Hle.
  rewrite (runEffect_traced_erase type_error fuel' effect w' 0 []), (Ht fuel' Hle).
  simpl. rewrite Hres. reflexivity.
Qed.

(** ** Identity and nesting *)

(** X5. Chaining a well-formed effect with the constructor [Success]
    changes nothing: the result is equivalent to the effect, in the same
    world, and runs as the effect runs. *)
Theorem chain_Success_right_identity (effect : Effect) (w : World) :
  well_formed effect ->
  same_completion equiv
    (chain effect (fun value => ret (Success value)) w) (Normal effect, w)
  /\ forall fuel,
       run_built fuel (chain effect (fun value => ret (Success value)) w)
       = runEffect_traced fuel effect w 0 [].
Proof.
  intros Hwf.
  assert (H : same_completion equiv
                (chain effect (fun value => ret (Success value)) w)
                (Normal effect, w)).
  { revert w. induction Hwf as [value|error|cmd next Hnext IH]; intros w.
    - constructor. constructor.
    - constructor. constructor.
    - rewrite chain_Command. constructor. constructor. intros r w1.
      unfold bind. destruct (next r w1) as [[a|x] w2] eqn:E.
      + exact (IH _ _ _ _ E w2).
      + constructor. }
  split; [exact H|]. intros fuel.
  exact (run_built_equiv type_error fuel H).
Qed.

(** X6. A pipeline used as the first step of another pipeline is the
    pipeline of all the steps in a row; and a pipeline of [fs] followed
    by [gs] is the pipeline of [fs], folded further over [gs]. *)
Theorem effectPipe_nested (fs gs : list Fn) (start : Val) (w : World) :
  effectPipe (effectPipe fs :: gs) start w = effectPipe (fs ++ gs) start w
  /\ effectPipe (fs ++ gs) start w
     = bind (effectPipe fs start) (fun effect => reduce chain gs effect) w.
Proof.
  assert (H : effectPipe (fs ++ gs) start w
              = bind (effectPipe fs start) (fun effect => reduce chain gs effect) w).
  { rewrite effectPipe_fold, pipeline_fold_app. unfold bind.
    rewrite effectPipe_fold.
    destruct (pipeline_fold fs (Success start) w) as [[a|x] w1];
      [symmetry; apply reduce_fold | reflexivity]. }
  split; [|exact H].
  rewrite H, effectPipe_fold. simpl. unfold bind.
  destruct (effectPipe fs start w) as [[a|x] w1];
    [symmetry; apply reduce_fold | reflexivity].
Qed.

(** X7. Once the steps so far have given a Failure, or one of them has
    thrown, steps added after them change neither the result nor the
    world: they are not called. *)
Theorem effectPipe_prefix_settles (fs gs : list Fn) (start : Val)
    (w w1 : World) :
  (forall x, effectPipe fs start w = (Normal (Failure x), w1) ->
             effectPipe (fs ++ gs) start w = (Normal (Failure x), w1))
  /\ (forall E, effectPipe fs start w = (Throw E, w1) ->
                effectPipe (fs ++ gs) start w = (Throw E, w1)).
Proof.
  split; intros x H; rewrite effectPipe_fold in H;
    rewrite effectPipe_fold, pipeline_fold_app; unfold bind; rewrite H;
    [apply pipeline_fold_Failure | reflexivity].
Qed.

(** ** What the interpreter returns *)

(** X8. For an effect whose continuations return no thenable, what
    [runEffect] resolves with is left alone by [runEffect]:
    interpreting it again returns it at once, in whatever world, with no
    iteration and no operation called. *)
Theorem runEffect_idempotent (fuel : nat) (effect o : Effect) (w w' : World) :
  thenable_free effect ->
  runEffect fuel effect w = Some (Normal o, w') ->
  forall fuel2 w2,
    runEffect fuel2 o w2 = Some (Normal o, w2)
    /\ runEffect_traced fuel2 o w2 0 [] = Some (mkRun (Normal o) w2 0 [] false).
Proof.
  intros Hfree H fuel2 w2.
  assert (Ht := @runEffect_result_stable fuel effect w o w' Hfree H fuel2 w2 0 []).
  split; [|exact Ht].
  rewrite (runEffect_traced_erase type_error fuel2 o w2 0 []), Ht. reflexivity.
Qed.

(** X9. The test of the loop stands outside [try]: when a continuation
    returns [undefined], the promise of [runEffect] rejects with the
    [TypeError] of reading [.type], and no Failure is returned.  With a
    further step chained on, the same error is thrown by [chain] inside
    the continuation, so inside [try], and comes back as a Failure. *)
Theorem runEffect_rejects_on_undefined (cmd : Op)
    (next : Val -> M Val World Effect) (w w1 w2 : World) (s : settled Val)
    (r : Val) :
  cmd w = (s, w1) -> await s = Normal r ->
  next r w1 = (Normal Undefined, w2) ->
  forall (fuel : nat) (fn : Fn),
    runEffect (S fuel) (Command cmd next) w = Some (Throw type_error, w2)
    /\ exists chained,
         chain (Command cmd next) fn w = (Normal chained, w)
         /\ runEffect (S fuel) chained w
            = Some (Normal (Failure type_error), w2).
Proof.
  intros Hcmd Hawait Hnext fuel fn. split.
  - simpl. rewrite Hcmd, Hawait, Hnext. destruct fuel; reflexivity.
  - eexists. split; [apply chain_Command|].
    simpl. rewrite Hcmd, Hawait. unfold bind. rewrite Hnext. reflexivity.
Qed.

(** ** A pipeline as a step of a pipeline *)

Lemma equiv_trans (a : Effect) :
  forall b c, equiv a b -> equiv b c -> equiv a c.
Proof.
  induction a as [value|error|cmd next IH|type body| |type then_ IHt] using Effect_induction;
    intros b c Hab Hbc; inversion Hab; subst; inversion Hbc; subst;
    try constructor.
  intros r w.
  match goal with
  | H12 : forall r w, same_completion equiv (next r w) (?n2 r w),
    H23 : forall r w, same_completion equiv (?n2 r w) (?n3 r w) |- _ =>
      specialize (H12 r w); specialize (H23 r w);
      destruct (next r w) as [[a1|x1] w1] eqn:E1;
      destruct (n2 r w) as [[a2|x2] w2];
      destruct (n3 r w) as [[a3|x3] w3];
      inversion H12; subst; inversion H23; subst; constructor;
      eapply IH; eassumption
  end.
Qed.

Lemma same_completion_trans (p q r : completion Val Effect * World) :
  same_completion equiv p q -> same_completion equiv q r ->
  same_completion equiv p r.
Proof.
  intros Hpq Hqr. inversion Hpq; subst; inversion Hqr; subst; constructor.
  eapply equiv_trans; eassumption.
Qed.

(** [chain] maps equivalent effects to equivalent effects. *)
Lemma chain_equiv (fn : Fn) (a : Effect) :
  forall b w, equiv a b ->
              same_completion equiv (chain a fn w) (chain b fn w).
Proof.
  induction a as [value|error|cmd next IH|type body| |type then_ IHt] using Effect_induction;
    intros b w Hab; inversion Hab as [| |cmd' n1 n2 Hn| | |]; subst;
    try apply same_completion_refl.
  rewrite !chain_Command. constructor. constructor. intros r w1.
  specialize (Hn r w1). unfold bind.
  destruct (next r w1) as [[a1|x1] w2] eqn:E1;
    destruct (n2 r w1) as [[a2|x2] w3];
    inversion Hn; subst; [|constructor].
  eapply IH; eassumption.
Qed.

Lemma bind_equiv (m1 m2 : completion Val Effect * World)
    (k1 k2 : Effect -> M Val World Effect) :
  same_completion equiv m1 m2 ->
  (forall a b w, equiv a b -> same_completion equiv (k1 a w) (k2 b w)) ->
  same_completion equiv
    (match m1 with (Normal a, w) => k1 a w | (Throw e, w) => (Throw e, w) end)
    (match m2 with (Normal a, w) => k2 a w | (Throw e, w) => (Throw e, w) end).
Proof.
  intros Hm Hk. inversion Hm; subst; [apply Hk; assumption | constructor].
Qed.

Lemma pipeline_fold_equiv (steps : list Fn) :
  forall a b w, equiv a b ->
                same_completion equiv (pipeline_fold steps a w)
                  (pipeline_fold steps b w).
Proof.
  induction steps as [|step rest IH]; intros a b w Hab; simpl.
  - constructor. exact Hab.
  - unfold bind. apply bind_equiv; [apply chain_equiv; exact Hab | exact IH].
Qed.

(** Folding steps over an accumulator against chaining the accumulator
    with the pipeline of the steps. *)
Lemma pipeline_fold_as_chain (fs : list Fn) (accumulated : Effect) :
  well_formed accumulated ->
  forall w,
    same_completion equiv (pipeline_fold fs accumulated w)
      (chain accumulated (effectPipe fs) w).
Proof.
  induction 1 as [value|error|cmd next Hnext IH]; intros w.
  - simpl. rewrite effectPipe_fold. apply same_completion_refl.
  - rewrite pipeline_fold_Failure. apply same_completion_refl.
  - destruct (pipeline_fold_Command type_error fs cmd next w)
      as [next' [Hfold Hnext']].
    rewrite Hfold, chain_Command. constructor. constructor. intros r w1.
    apply same_completion_trans with (1 := Hnext' r w1).
    unfold bind. destruct (next r w1) as [[a|x] w2] eqn:E.
    + exact (IH _ _ _ _ E w2).
    + constructor.
Qed.

(** X10. A pipeline can stand as a step anywhere in a pipeline whose
    earlier steps return well-formed effects: the pipeline with the
    inner steps written in a row and the pipeline with them wrapped in
    [effectPipe] throw the same error or return equivalent effects, in
    the same world, and are interpreted alike. *)
Theorem effectPipe_nested_anywhere (hs fs gs : list Fn) (start : Val)
    (w : World) :
  Forall (@well_formed_fn Val World) hs ->
  same_completion equiv
    (effectPipe (hs ++ fs ++ gs) start w)
    (effectPipe (hs ++ effectPipe fs :: gs) start w)
  /\ forall fuel,
       run_built fuel (effectPipe (hs ++ fs ++ gs) start w)
       = run_built fuel (effectPipe (hs ++ effectPipe fs :: gs) start w).
Proof.
  intros Hhs.
  assert (H : same_completion equiv
                (effectPipe (hs ++ fs ++ gs) start w)
                (effectPipe (hs ++ effectPipe fs :: gs) start w)).
  { rewrite !effectPipe_fold, !pipeline_fold_app. unfold bind.
    destruct (pipeline_fold hs (Success start) w) as [[acc|x] w1] eqn:E;
      [|constructor].
    assert (Hacc : well_formed acc).
    { eapply (pipeline_fold_well_formed Hhs); [|exact E]. constructor. }
    rewrite pipeline_fold_app. simpl. unfold bind.
    apply bind_equiv;
      [apply pipeline_fold_as_chain; exact Hacc | apply pipeline_fold_equiv]. }
  split; [exact H | intros fuel; exact (run_built_equiv type_error fuel H)].
Qed.

End Composition.

(** ** The composition laws on the registration flow *)

Lemma validateRegistration_well_formed_fn :
  well_formed_fn Demo.validateRegistration.
Proof.
  intros v w e w' H. unfold Demo.validateRegistration, Demo.spy in H.
  destruct (String.eqb v "bad-email"); inversion H; constructor.
Qed.

Lemma findUserByEmail_step_well_formed_fn :
  well_formed_fn (Demo.spy "findUserByEmail" (fun _ => ret Demo.findUserByEmail)).
Proof.
  intros v w e w' H. inversion H. apply findUserByEmail_well_formed.
Qed.

Lemma findUserByEmail_thenable_free : thenable_free Demo.findUserByEmail.
Proof. exact (well_formed_thenable_free findUserByEmail_well_formed). Qed.

Lemma findThenReject_thenable_free : thenable_free Demo.findThenReject.
Proof. exact (well_formed_thenable_free findThenReject_well_formed). Qed.

Lemma findThenSave_thenable_free : thenable_free Demo.findThenSave.
Proof. unfold Demo.findThenSave, Demo.saveUser. well_formed_by_cases. Qed.

(** The three laws above need the hypothesis: when the continuation is
    [async] and its promise is fulfilled with [Success], the command
    runs to that Success, but chained with a step it ends in a rejected
    promise, since [chain] on the promise gives [undefined]. *)
Example runEffect_chain_beyond_thenable_free :
  let e := Command Demo.cmdFindUser
             (fun foundUser => ret (Thenable "Promise" (ret (Success foundUser)))) in
  runEffect Demo.type_error 1 e [] = Some (Normal (Success "null"), ["cmdFindUser"])
  /\ exists chained,
       chain Demo.type_error e Demo.ensureEmailIsAvailable [] = (Normal chained, [])
       /\ runEffect Demo.type_error 1 chained []
          = Some (Throw Demo.type_error, ["cmdFindUser"]).
Proof. split; [reflexivity | eexists; split; reflexivity]. Qed.

(** Likewise when the promise is fulfilled with a Failure: the command
    runs to the Failure, the chained command to a rejected promise. *)
Example runEffect_chain_Failure_beyond_thenable_free :
  let e := Command Demo.cmdFindUser
             (fun _ => ret (Thenable "Promise"
                              (ret (Failure "Email already in use.")))) in
  runEffect Demo.type_error 1 e []
  = Some (Normal (Failure "Email already in use."), ["cmdFindUser"])
  /\ exists chained,
       chain Demo.type_error e Demo.validateRegistration [] = (Normal chained, [])
       /\ runEffect Demo.type_error 1 chained []
          = Some (Throw Demo.type_error, ["cmdFindUser"]).
Proof. split; [reflexivity | eexists; split; reflexivity]. Qed.

Lemma runEffect_chain_in_sequence_witness :
  thenable_free Demo.findUserByEmail
  /\ runEffect_traced Demo.type_error 1 Demo.findUserByEmail [] 0 []
  = Some (mkRun (Normal (Success "null")) ["cmdFindUser"] 1
            [Demo.cmdFindUser] false)
  /\ Demo.ensureEmailIsAvailable "null" ["cmdFindUser"]
     = (Normal (Success "true"), ["cmdFindUser"; "ensureEmailIsAvailable"])
  /\ exists chained,
       chain Demo.type_error Demo.findUserByEmail Demo.ensureEmailIsAvailable []
       = (Normal chained, [])
       /\ runEffect_traced Demo.type_error (1 + 0) chained [] 0 []
          = Some (mkRun (Normal (Success "true"))
                    ["cmdFindUser"; "ensureEmailIsAvailable"] 1
                    [Demo.cmdFindUser] false).
Proof.
  split; [exact findUserByEmail_thenable_free|].
  split; [reflexivity | split; [reflexivity|]].
  exact (@runEffect_chain_in_sequence Demo.Val Demo.World Demo.type_error
           Demo.cmdFindUser (fun foundUser => ret (Success foundUser))
           Demo.ensureEmailIsAvailable [] _ 0 [] 1 0 _ _ "null" _
           findUserByEmail_thenable_free eq_refl eq_refl eq_refl eq_refl).
Defined.

Lemma runEffect_chain_after_Failure_witness :
  thenable_free Demo.findThenReject
  /\ runEffect_traced Demo.type_error 1 Demo.findThenReject [] 0 []
  = Some (mkRun (Normal (Failure "Email already in use.")) ["cmdFindUser"] 1
            [Demo.cmdFindUser] false)
  /\ exists chained,
       chain Demo.type_error Demo.findThenReject Demo.validateRegistration []
       = (Normal chained, [])
       /\ runEffect_traced Demo.type_error 1 chained [] 0 []
          = Some (mkRun (Normal (Failure "Email already in use."))
                    ["cmdFindUser"] 1 [Demo.cmdFindUser] false).
Proof.
  split; [exact findThenReject_thenable_free | split; [reflexivity|]].
  exact (@runEffect_chain_after_Failure Demo.Val Demo.World Demo.type_error
           Demo.cmdFindUser
           (fun _ => ret (Failure "Email already in use."))
           Demo.validateRegistration [] 0 [] 1 _ "Email already in use."
           findThenReject_thenable_free eq_refl eq_refl).
Defined.

Lemma runEffect_chain_step_throws_witness :
  thenable_free Demo.findUserByEmail
  /\ runEffect_traced Demo.type_error 1 Demo.findUserByEmail [] 0 []
  = Some (mkRun (Normal (Success "null")) ["cmdFindUser"] 1
            [Demo.cmdFindUser] false)
  /\ exists chained,
       chain Demo.type_error Demo.findUserByEmail (fun _ => throw "boom") []
       = (Normal chained, [])
       /\ runEffect_traced Demo.type_error 1 chained [] 0 []
          = Some (mkRun (Normal (Failure "boom")) ["cmdFindUser"] 1
                    [Demo.cmdFindUser] true).
Proof.
  split; [exact findUserByEmail_thenable_free | split; [reflexivity|]].
  exact (proj1 (@runEffect_chain_step_throws Demo.Val Demo.World
                  Demo.type_error Demo.cmdFindUser
                  (fun foundUser => ret (Success foundUser))
                  (fun _ => throw "boom") [] ["cmdFindUser"] 0 [] 1 _
                  "null" "boom" findUserByEmail_thenable_free
                  eq_refl eq_refl eq_refl)).
Defined.

Lemma effectPipe_well_formed_witness :
  Forall (@well_formed_fn Demo.Val Demo.World)
    [Demo.validateRegistration;
     Demo.spy "findUserByEmail" (fun _ => ret Demo.findUserByEmail)]
  /\ effectPipe Demo.type_error
       [Demo.validateRegistration;
        Demo.spy "findUserByEmail" (fun _ => ret Demo.findUserByEmail)]
       "test@test.com" []
     = (Normal Demo.findUserByEmail, ["validateRegistration"; "findUserByEmail"])
  /\ well_formed Demo.findUserByEmail.
Proof.
  assert (H : Forall (@well_formed_fn Demo.Val Demo.World)
                [Demo.validateRegistration;
                 Demo.spy "findUserByEmail" (fun _ => ret Demo.findUserByEmail)]).
  { repeat constructor.
    - exact validateRegistration_well_formed_fn.
    - exact findUserByEmail_step_well_formed_fn. }
  split; [exact H | split; [reflexivity|]].
  exact (proj1 (@effectPipe_well_formed Demo.Val Demo.World Demo.type_error
                  _ "test@test.com" [] _ _ H eq_refl)).
Defined.

Lemma chain_Success_right_identity_witness :
  well_formed Demo.findThenReject
  /\ run_built Demo.type_error 1
       (chain Demo.type_error Demo.findThenReject
          (fun value => ret (Success value)) [])
     = runEffect_traced Demo.type_error 1 Demo.findThenReject [] 0 [].
Proof.
  split; [exact findThenReject_well_formed|].
  exact (proj2 (@chain_Success_right_identity Demo.Val Demo.World
                  Demo.type_error Demo.findThenReject []
                  findThenReject_well_formed) 1).
Defined.

Lemma runEffect_idempotent_witness :
  thenable_free Demo.findThenSave
  /\ runEffect Demo.type_error 2 Demo.findThenSave []
  = Some (Normal (Success "savedRecord"), ["cmdFindUser"; "cmdSaveUser"])
  /\ runEffect Demo.type_error 0 (Success "savedRecord")
       ["cmdFindUser"; "cmdSaveUser"]
     = Some (Normal (Success "savedRecord"), ["cmdFindUser"; "cmdSaveUser"]).
Proof.
  split; [exact findThenSave_thenable_free | split; [reflexivity|]].
  exact (proj1 (@runEffect_idempotent Demo.Val Demo.World Demo.type_error
                  2 Demo.findThenSave _ [] _ findThenSave_thenable_free eq_refl
                  0 ["cmdFindUser"; "cmdSaveUser"])).
Defined.

Lemma runEffect_rejects_on_undefined_witness :
  Demo.cmdFindUser [] = (Resolves "null", ["cmdFindUser"])
  /\ await (Resolves (Val := Demo.Val) "null") = Normal "null"
  /\ runEffect Demo.type_error 1
       (Command Demo.cmdFindUser (fun _ => ret Undefined)) []
     = Some (Throw Demo.type_error, ["cmdFindUser"]).
Proof.
  split; [reflexivity | split; [reflexivity|]].
  exact (proj1 (@runEffect_rejects_on_undefined Demo.Val Demo.World
                  Demo.type_error Demo.cmdFindUser (fun _ => ret Undefined)
                  [] ["cmdFindUser"] ["cmdFindUser"] (Resolves "null") "null"
                  eq_refl eq_refl eq_refl 0 Demo.validateRegistration)).
Defined.

Lemma effectPipe_nested_anywhere_witness :
  Forall (@well_formed_fn Demo.Val Demo.World) [Demo.validateRegistration]
  /\ run_built Demo.type_error 2
       (effectPipe Demo.type_error
          ([Demo.validateRegistration]
           ++ [Demo.spy "findUserByEmail" (fun _ => ret Demo.findUserByEmail);
               Demo.ensureEmailIsAvailable]
           ++ [Demo.spy "saveUser" (fun _ => ret Demo.saveUser)])
          "test@test.com" [])
     = run_built Demo.type_error 2
         (effectPipe Demo.type_error
            ([Demo.validateRegistration]
             ++ effectPipe Demo.type_error
                  [Demo.spy "findUserByEmail" (fun _ => ret Demo.findUserByEmail);
                   Demo.ensureEmailIsAvailable]
                :: [Demo.spy "saveUser" (fun _ => ret Demo.saveUser)])
            "test@test.com" []).
Proof.
  assert (H : Forall (@well_formed_fn Demo.Val Demo.World)
                [Demo.validateRegistration]).
  { repeat constructor. exact validateRegistration_well_formed_fn. }
  split; [exact H|].
  exact (proj2 (@effectPipe_nested_anywhere Demo.Val Demo.World
                  Demo.type_error [Demo.validateRegistration] _ _
                  "test@test.com" [] H) 2).
Defined.

(** * The registration flow of the test file *)

Import Registration.

(** ** Auxiliary lemmas *)

Lemma accepted_inv (u : User) :
  accepted u = true ->
  email_has_at (email u) = true /\ password_too_short (password u) = false.
Proof.
  unfold accepted. intros H. apply andb_true_iff in H. destruct H as [H1 H2].
  split; [exact H1 | apply negb_true_iff; exact H2].
Qed.

Lemma field_eqb_eq (a b : field) : field_eqb a b = true <-> a = b.
Proof.
  destruct a as [| |s], b as [| |t]; simpl; split; intros H;
    try reflexivity; try discriminate H.
  - apply String.eqb_eq in H. subst. reflexivity.
  - injection H as ->. apply String.eqb_refl.
Qed.

Lemma map_get_set_same (key : field) (u : User) (m : list (field * User)) :
  map_get key (map_set key u m) = Some u.
Proof.
  induction m as [|[k u'] rest IH]; simpl.
  - rewrite (proj2 (field_eqb_eq key key) eq_refl). reflexivity.
  - destruct (field_eqb k key) eqn:E; simpl.
    + rewrite (proj2 (field_eqb_eq key key) eq_refl). reflexivity.
    + rewrite E. exact IH.
Qed.

Lemma map_get_set_other (key key' : field) (u : User) (m : list (field * User)) :
  key' <> key -> map_get key' (map_set key u m) = map_get key' m.
Proof.
  intros Hne.
  assert (Hkey : field_eqb key key' = false).
  { destruct (field_eqb key key') eqn:E; [|reflexivity].
    apply field_eqb_eq in E. congruence. }
  induction m as [|[k u'] rest IH]; simpl.
  - rewrite Hkey. reflexivity.
  - destruct (field_eqb k key) eqn:E; simpl.
    + apply field_eqb_eq in E. subst k. rewrite Hkey. reflexivity.
    + destruct (field_eqb k key'); [reflexivity | exact IH].
Qed.

(** The run of the flow when the e-mail is free, and when it is taken. *)
Lemma registerUser_run_fresh (u : User) (w : World) (fuel : nat) :
  accepted u = true -> map_get (email u) (users w) = None ->
  run_built type_error (S (S fuel)) (registerUserFlow (VUser u) w)
  = Some (mkRun (Normal (Success (VUser (saved u w))))
            (mkWorld (map_set (email u) (saved u w) (users w)) (now w))
            2 [cmdFindUser (email u); cmdSaveUser (email u) (password u)]
            false).
Proof.
  intros H Hfresh. destruct (accepted_inv _ H) as [He Hp].
  unfold run_built. evaluate_flow He Hp.
  unfold db_findUserByEmail. rewrite Hfresh. destruct fuel; reflexivity.
Qed.

Lemma registerUser_run_taken (u existing : User) (w : World) (fuel : nat) :
  accepted u = true -> map_get (email u) (users w) = Some existing ->
  run_built type_error (S fuel) (registerUserFlow (VUser u) w)
  = Some (mkRun (Normal (Failure (VString "Email already in use."))) w
            1 [cmdFindUser (email u)] false).
Proof.
  intros H Htaken. destruct (accepted_inv _ H) as [He Hp].
  unfold run_built. evaluate_flow He Hp.
  unfold db_findUserByEmail. rewrite Htaken. destruct fuel; reflexivity.
Qed.

(** [registerUser] is the flow interpreted, without the counters. *)
Lemma registerUser_run_built (fuel : nat) (input : value) (w : World) :
  registerUser fuel input w
  = option_map (fun t => (result t, world t))
      (run_built type_error fuel (registerUserFlow input w)).
Proof.
  unfold registerUser, run_built.
  destruct (registerUserFlow input w) as [[effect|e] w1]; [|reflexivity].
  apply runEffect_traced_erase.
Qed.

(** ** Validation *)

(** X11. For every input that is not [undefined] or [null] and whose
    [email] is missing, [null] or a string without ['@'],
    [registerUser] resolves with [Failure 'Invalid email format.']; the
    [db] is as it was and no operation has been called, whatever the
    password is. *)
Theorem registerUser_rejects_invalid_email (input : value) (w : World) (fuel : nat) :
  input <> VUndefined -> input <> VNull ->
  (forall u, input = VUser u -> email_has_at (email u) = false) ->
  registerUser fuel input w
  = Some (Normal (Failure (VString "Invalid email format.")), w)
  /\ run_built type_error fuel (registerUserFlow input w)
     = Some (mkRun (Normal (Failure (VString "Invalid email format."))) w
               0 [] false).
Proof.
  intros Hundef Hnull Hemail.
  assert (H : run_built type_error fuel (registerUserFlow input w)
              = Some (mkRun (Normal (Failure (VString "Invalid email format."))) w
                        0 [] false)).
  { destruct input as [| |b|s|u|]; try congruence;
      try (destruct fuel; reflexivity).
    specialize (Hemail u eq_refl).
    unfold run_built. evaluate_flow Hemail Hemail. destruct fuel; reflexivity. }
  split; [|exact H]. rewrite registerUser_run_built, H. reflexivity.
Qed.

(** X12. For a user whose e-mail has an ['@'] and whose password is a
    string of fewer than 8 code units, [registerUser] resolves with
    [Failure 'Password must be at least 8 characters long.']; the [db]
    is as it was and no operation has been called. *)
Theorem registerUser_short_password (u : User) (w : World) (fuel : nat) :
  email_has_at (email u) = true -> password_too_short (password u) = true ->
  registerUser fuel (VUser u) w
  = Some (Normal (Failure (VString "Password must be at least 8 characters long.")), w)
  /\ run_built type_error fuel (registerUserFlow (VUser u) w)
     = Some (mkRun
               (Normal (Failure (VString "Password must be at least 8 characters long.")))
               w 0 [] false).
Proof.
  intros He Hp.
  assert (H : run_built type_error fuel (registerUserFlow (VUser u) w)
              = Some (mkRun
                        (Normal (Failure (VString "Password must be at least 8 characters long.")))
                        w 0 [] false)).
  { unfold run_built. evaluate_flow He Hp. destruct fuel; reflexivity. }
  split; [|exact H]. rewrite registerUser_run_built, H. reflexivity.
Qed.

(** X13. The length test does not see a missing password: a user whose
    e-mail has an ['@'] and whose password is absent or [null] passes
    [validateRegistration], and with a free e-mail is registered, with
    the password ['hashed_undefined'] or ['hashed_null'] stored. *)
Theorem registerUser_accepts_missing_password (u : User) (w : World)
    (fuel : nat) :
  email_has_at (email u) = true ->
  password u = Absent \/ password u = Null ->
  map_get (email u) (users w) = None ->
  validateRegistration (VUser u) w = (Normal (Success (VUser u)), w)
  /\ exists stored,
       (stored = "hashed_undefined" \/ stored = "hashed_null")
       /\ registerUser (S (S fuel)) (VUser u) w
          = Some (Normal (Success (VUser (mkUser (Some (now w)) (email u) (Str stored)))),
                  mkWorld
                    (map_set (email u)
                       (mkUser (Some (now w)) (email u) (Str stored)) (users w))
                    (now w)).
Proof.
  intros He Hmissing Hfresh.
  assert (Hp : password_too_short (password u) = false)
    by (destruct Hmissing as [-> | ->]; reflexivity).
  assert (Hacc : accepted u = true) by (unfold accepted; rewrite He, Hp; reflexivity).
  split.
  - unfold validateRegistration. simpl. unfold bind, ret. rewrite He, Hp.
    reflexivity.
  - exists ("hashed_" ++ to_string (password u)). split.
    + destruct Hmissing as [-> | ->]; [left | right]; reflexivity.
    + rewrite registerUser_run_built, (@registerUser_run_fresh u w fuel Hacc Hfresh).
      reflexivity.
Qed.

(** ** Registration *)

(** X14. For an accepted user whose e-mail is not in the [db],
    [registerUser] resolves with [Success] of the saved record: the
    e-mail, the password prefixed with ['hashed_'], and [Date.now()] as
    [id].  It takes two iterations, the find operation then the save
    operation.  Afterwards [db.findUserByEmail] resolves with that
    record for the e-mail, and every other e-mail reads as before. *)
Theorem registerUser_fresh_email (u : User) (w : World) (fuel : nat) :
  accepted u = true -> map_get (email u) (users w) = None ->
  let w' := mkWorld (map_set (email u) (saved u w) (users w)) (now w) in
  registerUser (S (S fuel)) (VUser u) w
  = Some (Normal (Success (VUser (saved u w))), w')
  /\ registerUser 1 (VUser u) w = None
  /\ run_built type_error (S (S fuel)) (registerUserFlow (VUser u) w)
     = Some (mkRun (Normal (Success (VUser (saved u w)))) w' 2
               [cmdFindUser (email u); cmdSaveUser (email u) (password u)]
               false)
  /\ db_findUserByEmail (email u) w' = (Resolves (VUser (saved u w)), w')
  /\ forall other, other <> email u ->
                   map_get other (users w') = map_get other (users w).
Proof.
  intros Hacc Hfresh w'.
  assert (H := @registerUser_run_fresh u w fuel Hacc Hfresh).
  split; [|split; [|split; [exact H | split]]].
  - rewrite registerUser_run_built, H. reflexivity.
  - destruct (accepted_inv _ Hacc) as [He Hp]. evaluate_flow He Hp.
    unfold db_findUserByEmail. rewrite Hfresh. reflexivity.
  - unfold db_findUserByEmail, w'. simpl. rewrite map_get_set_same. reflexivity.
  - intros other Hne. unfold w'. simpl. apply map_get_set_other. exact Hne.
Qed.

(** X15. For an accepted user whose e-mail is in the [db],
    [registerUser] resolves with [Failure 'Email already in use.'] after
    one iteration: only the find operation is called, the save operation
    never, and the [db] is as it was. *)
Theorem registerUser_taken_email (u existing : User) (w : World) (fuel : nat) :
  accepted u = true -> map_get (email u) (users w) = Some existing ->
  registerUser (S fuel) (VUser u) w
  = Some (Normal (Failure (VString "Email already in use.")), w)
  /\ run_built type_error (S fuel) (registerUserFlow (VUser u) w)
     = Some (mkRun (Normal (Failure (VString "Email already in use."))) w
               1 [cmdFindUser (email u)] false).
Proof.
  intros Hacc Htaken.
  assert (H := @registerUser_run_taken u existing w fuel Hacc Htaken).
  split; [|exact H]. rewrite registerUser_run_built, H. reflexivity.
Qed.

(** X16. Registering the same accepted user a second time fails:
    whatever the first [registerUser] gave, a second one on the users
    the first left, at whatever time, resolves with
    [Failure 'Email already in use.'] and leaves the users as they
    were. *)
Theorem registerUser_twice (u : User) (w w1 : World) (f1 f2 later : nat)
    (first : completion value (Effect value World)) :
  accepted u = true ->
  registerUser f1 (VUser u) w = Some (first, w1) ->
  registerUser (S f2) (VUser u) (mkWorld (users w1) later)
  = Some (Normal (Failure (VString "Email already in use.")),
          mkWorld (users w1) later).
Proof.
  intros Hacc Hfirst.
  assert (Hin : exists existing, map_get (email u) (users w1) = Some existing).
  { destruct (map_get (email u) (users w)) as [existing|] eqn:Hget.
    - destruct f1 as [|f1].
      + destruct (accepted_inv _ Hacc) as [He Hp].
        revert Hfirst. evaluate_flow He Hp. discriminate.
      + rewrite registerUser_run_built, (@registerUser_run_taken u existing w f1 Hacc Hget)
          in Hfirst.
        injection Hfirst as _ <-. exists existing. exact Hget.
    - destruct f1 as [|[|f1]].
      + destruct (accepted_inv _ Hacc) as [He Hp].
        revert Hfirst. evaluate_flow He Hp. discriminate.
      + destruct (accepted_inv _ Hacc) as [He Hp].
        revert Hfirst. evaluate_flow He Hp.
        unfold db_findUserByEmail. rewrite Hget. discriminate.
      + rewrite registerUser_run_built, (@registerUser_run_fresh u w f1 Hacc Hget)
          in Hfirst.
        injection Hfirst as _ <-. exists (saved u w). simpl.
        apply map_get_set_same. }
  destruct Hin as [existing Hget].
  rewrite registerUser_run_built,
    (@registerUser_run_taken u existing (mkWorld (users w1) later) f2 Hacc Hget).
  reflexivity.
Qed.

(** ** Walking the flow without running it *)

(** X17. For an accepted user, calling [registerUserFlow] touches
    nothing and returns a Command for the find operation on the user's
    e-mail.  Its continuation, called on a falsy result such as [null],
    returns a Command for the save operation on the e-mail and the
    hashed password, whose continuation wraps the saved record in
    [Success]; called on a truthy result, such as a stored user, it returns
    [Failure 'Email already in use.'].  Neither continuation touches the
    world. *)
Theorem registerUserFlow_call_tree_of (u : User) (w : World) :
  accepted u = true ->
  exists next1,
    registerUserFlow (VUser u) w
    = (Normal (Command (cmdFindUser (email u)) next1), w)
    /\ (forall found w1, truthy found = false ->
          exists next2,
            next1 found w1
            = (Normal (Command (cmdSaveUser (email u) (password u)) next2), w1)
            /\ forall savedUser w2,
                 next2 savedUser w2 = (Normal (Success savedUser), w2))
    /\ (forall found w1, truthy found = true ->
          next1 found w1
          = (Normal (Failure (VString "Email already in use.")), w1)).
Proof.
  intros Hacc. destruct (accepted_inv _ Hacc) as [He Hp].
  evaluate_flow He Hp. eexists. split; [reflexivity | split].
  - intros found w1 Hfalsy. unfold bind, ret. cbn [chain].
    unfold ensureEmailIsAvailable. rewrite Hfalsy.
    eexists. split; reflexivity.
  - intros found w1 Htruthy. unfold bind, ret. cbn [chain].
    unfold ensureEmailIsAvailable. rewrite Htruthy. reflexivity.
Qed.

(** X19. On [undefined] or [null] as input, reading the input's
    properties in [validateRegistration] throws while the flow is being
    built: [registerUserFlow] throws the [TypeError] and the promise of
    [registerUser] rejects with it, instead of resolving with a
    Failure. *)
Theorem registerUser_rejects_on_missing_input (input : value) (w : World)
    (fuel : nat) :
  input = VUndefined \/ input = VNull ->
  registerUserFlow input w = (Throw type_error, w)
  /\ registerUser fuel input w = Some (Throw type_error, w).
Proof.
  intros [-> | ->]; split; reflexivity.
Qed.

(** ** The in-memory [db] *)

Lemma map_set_fresh (key : field) (u : User) (m : list (field * User)) :
  map_get key m = None -> map_set key u m = (m ++ [(key, u)])%list.
Proof.
  induction m as [|[k u'] rest IH]; simpl; intros H; [reflexivity|].
  destruct (field_eqb k key); [discriminate H|].
  rewrite (IH H). reflexivity.
Qed.

Lemma map_set_present (key : field) (u old : User) (m : list (field * User)) :
  map_get key m = Some old -> List.length (map_set key u m) = List.length m.
Proof.
  induction m as [|[k u'] rest IH]; simpl; intros H; [discriminate H|].
  destruct (field_eqb k key); simpl; [reflexivity|].
  rewrite (IH H). reflexivity.
Qed.

(** X18. The two versions of [db.saveUser] differ in the order of the
    spread: on a user without [id] they do the same; on a user that has
    an [id], the first replaces it with [Date.now()] and the second
    keeps it.  The user the flow saves has no [id], so the save
    operation of the flow is the same with either. *)
Theorem db_saveUser_versions (user : User) (w : World) :
  (id user = None -> db_saveUser_spread_last user w = db_saveUser user w)
  /\ (forall i, id user = Some i ->
        fst (db_saveUser user w)
        = Resolves (VUser (mkUser (Some (now w)) (email user) (password user)))
        /\ fst (db_saveUser_spread_last user w)
           = Resolves (VUser (mkUser (Some i) (email user) (password user))))
  /\ (forall email password,
        db_saveUser_spread_last (userToSave email password) w
        = cmdSaveUser email password w).
Proof.
  split; [|split].
  - intros H. unfold db_saveUser_spread_last, db_saveUser. rewrite H. reflexivity.
  - intros i H. unfold db_saveUser_spread_last, db_saveUser. rewrite H.
    split; reflexivity.
  - reflexivity.
Qed.

(** X20. [db.saveUser] resolves with the user with [Date.now()] as
    [id] and stores it under the user's e-mail: [db.findUserByEmail] on
    that e-mail then resolves with the stored record, and on any other
    e-mail with what it gave before.  A new e-mail is added after the
    entries there were; an e-mail already present has its record
    replaced, and the number of entries stays.  [db.findUserByEmail]
    changes nothing. *)
Theorem db_saveUser_then_find (user : User) (w : World) :
  let stored := mkUser (Some (now w)) (email user) (password user) in
  let w1 := snd (db_saveUser user w) in
  db_saveUser user w = (Resolves (VUser stored), w1)
  /\ db_findUserByEmail (email user) w1 = (Resolves (VUser stored), w1)
  /\ (forall other, other <> email user ->
        fst (db_findUserByEmail other w1) = fst (db_findUserByEmail other w))
  /\ (map_get (email user) (users w) = None ->
      users w1 = (users w ++ [(email user, stored)])%list)
  /\ (forall old, map_get (email user) (users w) = Some old ->
        List.length (users w1) = List.length (users w))
  /\ (forall key, snd (db_findUserByEmail key w) = w).
Proof.
  intros stored w1. unfold w1, stored, db_saveUser, db_findUserByEmail. simpl.
  split; [reflexivity | split; [|split; [|split; [|split]]]].
  - rewrite map_get_set_same. reflexivity.
  - intros other Hne. rewrite map_get_set_other by exact Hne. reflexivity.
  - apply map_set_fresh.
  - intros old. apply map_set_present.
  - reflexivity.
Qed.

(** ** The flow on the inputs of the tests *)

Lemma goodInput_accepted : accepted goodInput = true.
Proof. reflexivity. Qed.

Lemma registerUser_rejects_invalid_email_witness :
  VUser badInput <> VUndefined /\ VUser badInput <> VNull
  /\ email_has_at (email badInput) = false
  /\ registerUser 0 (VUser badInput) (emptyDb 1700)
     = Some (Normal (Failure (VString "Invalid email format.")), emptyDb 1700).
Proof.
  assert (H1 : VUser badInput <> VUndefined) by discriminate.
  assert (H2 : VUser badInput <> VNull) by discriminate.
  assert (H3 : forall u, VUser badInput = VUser u -> email_has_at (email u) = false)
    by (intros u Hu; injection Hu as <-; reflexivity).
  exact (conj H1 (conj H2 (conj eq_refl
           (proj1 (@registerUser_rejects_invalid_email (VUser badInput)
                     (emptyDb 1700) 0 H1 H2 H3))))).
Defined.

Lemma registerUser_short_password_witness :
  email_has_at (Str "test@test.com") = true
  /\ password_too_short (Str "123") = true
  /\ registerUser 0 (VUser (mkUser None (Str "test@test.com") (Str "123")))
       (emptyDb 1700)
     = Some (Normal (Failure (VString "Password must be at least 8 characters long.")),
             emptyDb 1700).
Proof.
  exact (conj eq_refl (conj eq_refl
           (proj1 (@registerUser_short_password
                     (mkUser None (Str "test@test.com") (Str "123"))
                     (emptyDb 1700) 0 eq_refl eq_refl)))).
Defined.

Lemma registerUser_accepts_missing_password_witness :
  email_has_at (Str "test@test.com") = true
  /\ (Absent = Absent \/ Absent = Null)
  /\ map_get (Str "test@test.com") (users (emptyDb 1700)) = None
  /\ validateRegistration (VUser (mkUser None (Str "test@test.com") Absent))
       (emptyDb 1700)
     = (Normal (Success (VUser (mkUser None (Str "test@test.com") Absent))),
        emptyDb 1700).
Proof.
  exact (conj eq_refl (conj (or_introl eq_refl) (conj eq_refl
           (proj1 (@registerUser_accepts_missing_password
                     (mkUser None (Str "test@test.com") Absent)
                     (emptyDb 1700) 0 eq_refl (or_introl eq_refl) eq_refl))))).
Defined.

Lemma registerUser_fresh_email_witness :
  accepted goodInput = true
  /\ map_get (email goodInput) (users (emptyDb 1700)) = None
  /\ registerUser 2 (VUser goodInput) (emptyDb 1700)
     = Some (Normal (Success (VUser (mkUser (Some 1700) (Str "test@test.com")
                                       (Str "hashed_password123")))),
             mkWorld [(Str "test@test.com",
                       mkUser (Some 1700) (Str "test@test.com")
                         (Str "hashed_password123"))] 1700).
Proof.
  exact (conj eq_refl (conj eq_refl
           (proj1 (@registerUser_fresh_email goodInput (emptyDb 1700) 0
                     eq_refl eq_refl)))).
Defined.

Lemma registerUser_taken_email_witness :
  accepted goodInput = true
  /\ map_get (email goodInput)
       (users (mkWorld [(Str "test@test.com", saved goodInput (emptyDb 1700))] 1800))
     = Some (saved goodInput (emptyDb 1700))
  /\ registerUser 1 (VUser goodInput)
       (mkWorld [(Str "test@test.com", saved goodInput (emptyDb 1700))] 1800)
     = Some (Normal (Failure (VString "Email already in use.")),
             mkWorld [(Str "test@test.com", saved goodInput (emptyDb 1700))] 1800).
Proof.
  exact (conj eq_refl (conj eq_refl
           (proj1 (@registerUser_taken_email goodInput
                     (saved goodInput (emptyDb 1700))
                     (mkWorld [(Str "test@test.com", saved goodInput (emptyDb 1700))] 1800)
                     0 eq_refl eq_refl)))).
Defined.

Lemma registerUser_twice_witness :
  accepted goodInput = true
  /\ registerUser 2 (VUser goodInput) (emptyDb 1700)
     = Some (Normal (Success (VUser (saved goodInput (emptyDb 1700)))),
             mkWorld [(Str "test@test.com", saved goodInput (emptyDb 1700))] 1700)
  /\ registerUser 1 (VUser goodInput)
       (mkWorld [(Str "test@test.com", saved goodInput (emptyDb 1700))] 1800)
     = Some (Normal (Failure (VString "Email already in use.")),
             mkWorld [(Str "test@test.com", saved goodInput (emptyDb 1700))] 1800).
Proof.
  exact (conj eq_refl (conj eq_refl
           (@registerUser_twice goodInput (emptyDb 1700) _ 2 0 1800 _
              eq_refl eq_refl))).
Defined.

Lemma registerUserFlow_call_tree_of_witness :
  accepted goodInput = true
  /\ exists next1,
       registerUserFlow (VUser goodInput) (emptyDb 1700)
       = (Normal (Command (cmdFindUser (Str "test@test.com")) next1),
          emptyDb 1700).
Proof.
  split; [reflexivity|].
  destruct (@registerUserFlow_call_tree_of goodInput (emptyDb 1700) eq_refl)
    as [next1 [Hflow _]].
  exists next1. exact Hflow.
Defined.

Lemma registerUser_rejects_on_missing_input_witness :
  (VUndefined = VUndefined \/ VUndefined = VNull)
  /\ registerUser 3 VUndefined (emptyDb 1700)
     = Some (Throw type_error, emptyDb 1700).
Proof.
  exact (conj (or_introl eq_refl)
           (proj2 (@registerUser_rejects_on_missing_input VUndefined
                     (emptyDb 1700) 3 (or_introl eq_refl)))).
Defined.
